(** * Upload page counter: page estimator, persistent cache, lifecycle controller

    A shallow embedding of the upload page-count script (the file with the
    [countPdfPages], [cache] and [FilePond:*] listeners) and the properties
    its specification states about it.

    Modelling conventions, fixed once here:
    - A JavaScript string is a sequence of UTF-16 code units.  The content
      handed to the page estimator comes from [readAsBinaryString], which
      yields one code unit in 0..255 per byte of the file, so a content is a
      [list ascii].
    - Page counts are JavaScript numbers that only ever hold small integers
      ([matches.length], the constant 1, sums of those); numbers are
      modelled as [Z].
    - The cache object is used as a map from server identifiers to [null]
      or a number and is modelled as a [gmap string value].  Identifiers are
      ordinary strings: names that a JavaScript object treats specially
      ([__proto__]) or inherits from [Object.prototype] are not identifiers.
    - A text kept in [localStorage] is represented by what [JSON.parse]
      makes of it: either it is rejected, or it yields a JSON value; and
      [JSON.parse] gives back what [JSON.stringify] was given.
    - The store is available and the quantity input exists, so
      [getItem], [setItem] and [querySelector] return normally.
    - Every entry of the widget's file list has its server identifier, a
      string.  (An entry that has none yet adds nothing to the total and
      keeps no key in the cache, as if it were not in the list.)
    - [async] functions are cut at their [await]: the part before it runs
      with the event that calls it, the part after it runs as a step of its
      own, at any later time. *)

From Stdlib Require Import ZArith Ascii String.
From stdpp Require Import gmap strings list fin_maps pretty.

Open Scope Z_scope.
Set Warnings "-register-all".

(** ** The page estimator *)

Module Pdf.

(** Code units of a string literal. *)
Definition units (s : string) : list ascii := list_ascii_of_string s.

(** The class [\s] of the regular expression, on code units 0..255:
    TAB, LF, VT, FF, CR, SPACE and NO-BREAK SPACE. *)
Definition is_space (c : ascii) : bool :=
  let n := nat_of_ascii c in
  (Nat.leb 9 n && Nat.leb n 13) || Nat.eqb n 32 || Nat.eqb n 160.

(** Matching a literal piece of the pattern at the front of [s]; the result
    is what follows it. *)
Fixpoint literal (p s : list ascii) : option (list ascii) :=
  match p with
  | [] => Some s
  | a :: p' =>
      match s with
      | b :: s' => if Ascii.eqb a b then literal p' s' else None
      | [] => None
      end
  end.

(** [[\s]*], greedy: the longest run of white space and what follows it. *)
Fixpoint spaces (s : list ascii) : list ascii * list ascii :=
  match s with
  | c :: s' =>
      if is_space c
      then let '(ws, r) := spaces s' in (c :: ws, r)
      else ([], s)
  | [] => ([], [])
  end.

(** The pattern [/\/Type[\s]*\/Page[^s]/] anchored at the front of [s]:
    the matched text and the rest of the content.  The star is greedy; giving
    back white space never helps, because [/Page] starts with a character that
    is not white space (see [page_marker_complete]). *)
Definition page_marker (s : list ascii) : option (list ascii * list ascii) :=
  match literal (units "/Type") s with
  | None => None
  | Some s1 =>
      let '(ws, s2) := spaces s1 in
      match literal (units "/Page") s2 with
      | None => None
      | Some [] => None
      | Some (c :: rest) =>
          if Ascii.eqb c "s"
          then None
          else Some (units "/Type" ++ ws ++ units "/Page" ++ [c], rest)
      end
  end.

(** [String.prototype.match] with a global pattern: the engine tries the
    pattern at every index from [lastIndex] on, and after a match resumes
    at the end of the matched text.  [skip] is the number of code units
    still covered by the previous match. *)
Fixpoint match_from (skip : nat) (s : list ascii) : list (list ascii) :=
  match s with
  | [] => []
  | _ :: s' =>
      match skip with
      | S k => match_from k s'
      | O =>
          match page_marker s with
          | Some (m, _) => m :: match_from (length m - 1) s'
          | None => match_from 0 s'
          end
      end
  end.

(** [fileContent.match(/.../g)]: [null] when nothing matches, else the
    array of matched texts. *)
Definition String_match (fileContent : list ascii) : option (list (list ascii)) :=
  match match_from 0 fileContent with
  | [] => None
  | ms => Some ms
  end.

(** A [File] as the script sees it: its name, its declared type and the
    bytes [readAsBinaryString] resolves to. *)
Record File := mkFile {
  file_name : string;
  file_type : string;
  file_bytes : string
}.

Definition readAsBinaryString (file : File) : list ascii :=
  units (file_bytes file).

Definition countPdfPages (file : File) : Z :=
  let fileContent := readAsBinaryString file in
  match String_match fileContent with
  | None => 1
  | Some matches => Z.of_nat (length matches)
  end.

Definition analyzeFile (file : File) : Z :=
  if String.eqb (file_type file) "application/pdf"
  then countPdfPages file
  else 1.

(** The estimator on a bare content. *)
Definition estimate (content : string) : Z :=
  countPdfPages (mkFile "" "application/pdf" content).

End Pdf.

(** ** JSON values and the browser's key/value store *)

Module Json.

(** What [JSON.parse] can return.  Numbers are the integers, the only
    numbers the script stores; [load] looks at a number's [typeof] alone. *)
Inductive json :=
| JNull
| JBool (b : bool)
| JNum (n : Z)
| JStr (s : string)
| JArr (l : list json)
| JObj (m : gmap string json).

Definition typeof (j : json) : string :=
  match j with
  | JNull => "object"
  | JBool _ => "boolean"
  | JNum _ => "number"
  | JStr _ => "string"
  | JArr _ => "object"
  | JObj _ => "object"
  end.

Definition is_null (j : json) : bool :=
  match j with JNull => true | _ => false end.


(** A stored text, by what [JSON.parse] makes of it: a [SyntaxError], or
    the value it denotes. *)
Inductive text :=
| Malformed (raw : string)
| Wellformed (j : json).

(** [JSON.parse(l)] for [l] a text or [null]; [None] is the thrown
    [SyntaxError].  The argument [null] is first converted to the text
    "null", which denotes [JNull]. *)
Definition JSON_parse (l : option text) : option json :=
  match l with
  | None => Some JNull
  | Some (Malformed _) => None
  | Some (Wellformed j) => Some j
  end.

Definition JSON_stringify (j : json) : text := Wellformed j.

End Json.

(** ** The persistent keyed cache *)

Module Cache.
Import Json.

(** What the script writes under a key: [null] while the file is being
    analysed, then its page count. *)
Inductive value :=
| Null
| Num (n : Z).

Definition to_json (v : value) : json :=
  match v with
  | Null => JNull
  | Num n => JNum n
  end.

Definition of_json (j : json) : option value :=
  match j with
  | JNull => Some Null
  | JNum n => Some (Num n)
  | _ => None
  end.

Definition localStorageKey : string := "uploadPageCountCache".

(** [load()]: the value it leaves in [this.cache]. *)
Definition load (localStorage : gmap string text) : json :=
  let l := localStorage !! localStorageKey in
  match JSON_parse l with
  | Some parsed =>
      if String.eqb (typeof parsed) "object" && negb (is_null parsed)
      then parsed
      else JObj ∅
  | None => JObj ∅
  end.

(** The rest of the script uses [this.cache] as a map from identifiers to
    [null] or a number; a loaded object is read back at that type. *)
Definition as_cache (j : json) : option (gmap string value) :=
  match j with
  | JObj m =>
      if decide (map_Forall (λ _ v, is_Some (of_json v)) m)
      then Some (omap of_json m)
      else None
  | _ => None
  end.

(** An [addFile] call suspended at [await analyzeFile(...)]. *)
Record task := mkTask {
  task_key : string;
  task_file : Pdf.File
}.

(** The state the script reads and writes: the cache object, the store,
    the quantity input ([element.value]), the [change] events dispatched on
    it (each with the value the field held when it fired), and the
    suspended [addFile] calls. *)
Record state := mkState {
  cache : gmap string value;
  localStorage : gmap string text;
  quantity : string;
  changes : list string;
  suspended : list task
}.

Definition set_cache (c : gmap string value) (st : state) : state :=
  mkState c (localStorage st) (quantity st) (changes st) (suspended st).

Definition set_localStorage (ls : gmap string text) (st : state) : state :=
  mkState (cache st) ls (quantity st) (changes st) (suspended st).

Definition set_suspended (ts : list task) (st : state) : state :=
  mkState (cache st) (localStorage st) (quantity st) (changes st) ts.

Definition save (st : state) : state :=
  set_localStorage
    (<[localStorageKey := JSON_stringify (JObj (to_json <$> cache st))]>
       (localStorage st))
    st.

Definition setKey (key : string) (v : value) (st : state) : state :=
  save (set_cache (<[key := v]> (cache st)) st).

(** [None] is [undefined]. *)
Definition getKey (key : string) (st : state) : option value :=
  cache st !! key.

Definition hasKey (key : string) (st : state) : bool :=
  bool_decide (is_Some (cache st !! key)).

Definition Object_keys (m : gmap string value) : list string :=
  (map_to_list m).*1.

Definition clearExcept (exceptKeys : list string) (st : state) : state :=
  save
    (set_cache
       (foldl (λ m key, if bool_decide (key ∈ exceptKeys) then m else delete key m)
              (cache st) (Object_keys (cache st)))
       st).

(** The script starts with [cache.load()] on a fresh page. *)
Definition start (ls : gmap string text) (field : string) : option state :=
  c ← as_cache (load ls);
  Some (mkState c ls field [] []).

End Cache.

(** ** The lifecycle controller and the quantity publisher *)

Module Controller.
Import Json Cache.

(** An entry of the widget's file list, also the [detail.file] of an
    event: [file] is the [File] object, or after a reload only a string. *)
Record Item := mkItem {
  serverId : string;
  file : Pdf.File + string
}.

(** [x || 0] and [x || 1] on what the cache can hold. *)
Definition or_default (d : Z) (x : option value) : Z :=
  match x with
  | Some (Num n) => if n =? 0 then d else n
  | Some Null => d
  | None => d
  end.

Definition getPageCount (files : list Item) (st : state) : Z * state :=
  let cacheKeys := map serverId files in
  let pageCounts := map (λ key, or_default 0 (getKey key st)) cacheKeys in
  let st' := clearExcept cacheKeys st in
  (foldl (λ acc pageCount, acc + pageCount) 0 pageCounts, st').

(** [element.value = v; element.dispatchEvent(new Event("change"))]. *)
Definition publish (v : Z) (st : state) : state :=
  let shown := pretty v in
  mkState (cache st) (localStorage st) shown (changes st ++ [shown]) (suspended st).

Definition updatePageCount (files : list Item) (st : state) : state :=
  let '(pageCount, st') := getPageCount files st in
  publish (or_default 1 (Some (Num pageCount))) st'.

(** [addFile] up to its [await]. *)
Definition addFile (detail : Item) (st : state) : state :=
  match file detail with
  | inr _ => st
  | inl f =>
      let cacheKey := serverId detail in
      let st' := setKey cacheKey Null st in
      set_suspended (suspended st' ++ [mkTask cacheKey f]) st'
  end.

(** [addFile] after its [await]; [files] is what [detail.pond.getFiles()]
    returns at that moment. *)
Definition addFile_resume (t : task) (pageCount : Z) (files : list Item)
    (st : state) : state :=
  let cacheKey := task_key t in
  if hasKey cacheKey st
  then updatePageCount files (setKey cacheKey (Num pageCount) st)
  else st.

(** What the event loop can run next.  The three widget events carry what
    the widget reports; [analysis_done i] resumes the [i]-th suspended
    [addFile], in any order and at any time after its start (for a file
    that is not a PDF the script resumes it before any other event, which is
    one of these orders); [read_failed i] is the rejection of the content
    read of a PDF, after which that [addFile] never resumes. *)
Inductive event :=
| FilePond_init (files : list Item)
| FilePond_processfile (detail : Item)
| FilePond_removefile (files : list Item)
| analysis_done (i : nat) (files : list Item)
| read_failed (i : nat).

Definition handle (e : event) (st : state) : state :=
  match e with
  | FilePond_init files => updatePageCount files st
  | FilePond_processfile detail => addFile detail st
  | FilePond_removefile files => updatePageCount files st
  | analysis_done i files =>
      match suspended st !! i with
      | Some t =>
          addFile_resume t (Pdf.analyzeFile (task_file t)) files
            (set_suspended (delete i (suspended st)) st)
      | None => st
      end
  | read_failed i =>
      match suspended st !! i with
      | Some t =>
          if String.eqb (Pdf.file_type (task_file t)) "application/pdf"
          then set_suspended (delete i (suspended st)) st
          else st
      | None => st
      end
  end.

Definition run (es : list event) (st : state) : state :=
  foldl (λ s e, handle e s) st es.

End Controller.

(** ** What the specification says about the estimator, in its own terms *)

Module PdfSpec.
Import Pdf.

(** A page marker as the pattern describes it: [/Type], then zero or more
    white-space characters, then [/Page], then one further character that
    is not [s]. *)
Definition PageMarker (m : list ascii) : Prop :=
  ∃ ws c, Forall (λ a, is_space a = true) ws ∧ c ≠ "s"%char ∧
          m = units "/Type" ++ ws ++ units "/Page" ++ [c].

(** The marker [m] occurs in [content] at offset [i]. *)
Definition OccursAt (content : list ascii) (i : nat) (m : list ascii) : Prop :=
  PageMarker m ∧ ∃ rest, drop i content = m ++ rest.

Definition Occurs (content : list ascii) (i : nat) : Prop :=
  ∃ m, OccursAt content i m.

(** The successive non-overlapping matches of the pattern, read from left
    to right: before the first match no marker starts, and the search goes
    on behind the matched text. *)
Inductive Matches : list ascii → list (list ascii) → Prop :=
| Matches_none content :
    (∀ i, ¬ Occurs content i) →
    Matches content []
| Matches_next gap m rest ms :
    PageMarker m →
    (∀ i, (i < length gap)%nat → ¬ Occurs (gap ++ m ++ rest) i) →
    Matches rest ms →
    Matches (gap ++ m ++ rest) (m :: ms).

(** A family of occurrences at increasing offsets, none starting before
    offset [from] and none reaching into the next. *)
Fixpoint Disjoint (content : list ascii) (from : nat) (offsets : list nat) : Prop :=
  match offsets with
  | [] => True
  | i :: offsets' =>
      (from ≤ i)%nat ∧
      ∃ m, OccursAt content i m ∧ Disjoint content (i + length m) offsets'
  end.

(** No marker of the content starts inside another one. *)
Definition NoOverlap (content : list ascii) : Prop :=
  ∀ i m j, OccursAt content i m → (i < j < i + length m)%nat →
           ¬ Occurs content j.

(** Whether a marker starts at the front of [s]. *)
Definition marker_here (s : list ascii) : bool :=
  match page_marker s with
  | Some _ => true
  | None => false
  end.

(** The wording of the specification: the literal [/Type /Page] that is not
    followed by an [s], and the container literal [/Type /Pages]. *)
Definition literal_marker (s : list ascii) : bool :=
  match literal (units "/Type /Page") s with
  | Some (c :: _) => negb (Ascii.eqb c "s")
  | Some [] => true
  | None => false
  end.

Definition literal_container (s : list ascii) : bool :=
  match literal (units "/Type /Pages") s with
  | Some _ => true
  | None => false
  end.

(** The offsets of [content] at which [p] holds of what starts there. *)
Definition offsets (p : list ascii → bool) (content : list ascii) : list nat :=
  filter (λ i, p (drop i content) = true) (seq 0 (length content)).

(** Occurrences of a literal of length [n] at the offsets [l] do not
    overlap. *)
Definition apart (n : nat) (l : list nat) : Prop :=
  ∀ i j, i ∈ l → j ∈ l → (i < j)%nat → (i + n ≤ j)%nat.

End PdfSpec.

(** ** What the specification says about the controller, in its own terms *)

Module ControllerSpec.
Import Json Cache Controller.

(** What a cache entry adds to the aggregate: its count, and nothing while
    it is pending or missing. *)
Definition contribution (entry : option value) : Z :=
  match entry with
  | Some (Num n) => n
  | Some Null => 0
  | None => 0
  end.

(** The aggregate over the identifiers of a file list. *)
Fixpoint aggregate (c : gmap string value) (ids : list string) : Z :=
  match ids with
  | [] => 0
  | id :: ids' => contribution (c !! id) + aggregate c ids'
  end.

(** The events that start an analysis of the file [F]: a processed-file
    event for [F] that carries its content. *)
Definition starts_analysis (F : string) (e : event) : bool :=
  match e with
  | FilePond_processfile detail =>
      match file detail with
      | inl _ => String.eqb (serverId detail) F
      | inr _ => false
      end
  | _ => false
  end.

(** Every resolved entry of the cache holds a count of at least one page. *)
Definition counts_positive (st : state) : Prop :=
  ∀ k n, cache st !! k = Some (Num n) → 1 ≤ n.

(** The store holds the serialization of the cache. *)
Definition persisted (st : state) : Prop :=
  localStorage st !! localStorageKey
  = Some (JSON_stringify (JObj (to_json <$> cache st))).

End ControllerSpec.

(** ** The end-to-end scenario of the specification *)

Module Scenario.
Import Cache Controller.

(** A PDF with three page objects and one pages container. *)
Definition H1 : Pdf.File :=
  Pdf.mkFile "contract.pdf" "application/pdf"
    "%PDF-1.4 1 0 obj << /Type /Pages /Kids [2 0 R 3 0 R 4 0 R] >> endobj 2 0 obj << /Type /Page /Parent 1 0 R >> endobj 3 0 obj <</Type/Page/Parent 1 0 R>> endobj 4 0 obj << /Type /Page
/Parent 1 0 R >> endobj".

Definition H2 : Pdf.File := Pdf.mkFile "stamp.png" "image/png" "PNG /Type /Page ".

Definition s1 : Item := mkItem "s1" (inl H1).
Definition s2 : Item := mkItem "s2" (inl H2).

(** A fresh page: nothing cached, nothing stored, the field showing 1. *)
Definition fresh : state := mkState ∅ ∅ "1" [] [].

End Scenario.

(** ** Notions used to state what the running script maintains *)

Module Reachable.
Import Json Cache Controller.

(** A reload at this moment would restore the cache that is in memory. *)
Definition durable (st : state) : Prop :=
  as_cache (load (localStorage st)) = Some (cache st).

(** The identifiers for which a list of events starts an analysis. *)
Fixpoint started (es : list event) : list string :=
  match es with
  | [] => []
  | FilePond_processfile detail :: es' =>
      match file detail with
      | inl _ => serverId detail :: started es'
      | inr _ => started es'
      end
  | _ :: es' => started es'
  end.

(** No suspended [addFile] call is for the file [F]. *)
Definition not_in_flight (F : string) (st : state) : Prop :=
  ∀ t, t ∈ suspended st → task_key t ≠ F.

(** The cache holds no count for [F]: the key is absent or pending. *)
Definition uncounted (F : string) (st : state) : Prop :=
  cache st !! F = None ∨ cache st !! F = Some Null.

(** A text of the quantity field that shows a number of at least one. *)
Definition at_least_one (shown : string) : Prop :=
  ∃ v, 1 ≤ v ∧ shown = pretty v.

End Reachable.

(** ** The price script

    The second script, [update_price_on_quantity_change.js], listens to the
    [change] events of the quantity input and rewrites the price text.

    Conventions of this part:
    - A text of the page is a sequence of UTF-16 code units, a [list N].
    - A number is an integer or [NaN], an [option Z].  The script only ever
      divides by 100 and prints with [toFixed]; on an integer of magnitude
      below 10^15 the double [number / 100.0] lies within a fraction of a
      hundredth of the exact quotient, so [toFixed] prints the exact
      decimals.  Statements about amounts carry that bound.
    - [formatMoney] is applied to a number (its branch for a string argument
      is never taken by this script and is not modelled). *)

Module Price.

Definition codes (s : string) : list N := N_of_ascii <$> list_ascii_of_string s.

Definition is_digit (c : N) : bool := ((48 <=? c) && (c <=? 57))%N.

(** White space and line terminators: what [parseInt] skips and what [\s]
    matches. *)
Definition is_white (c : N) : bool :=
  (((9 <=? c) && (c <=? 13)) || (c =? 32) || (c =? 160) || (c =? 5760)
   || ((8192 <=? c) && (c <=? 8202)) || (c =? 8232) || (c =? 8233)
   || (c =? 8239) || (c =? 8287) || (c =? 12288) || (c =? 65279))%N.

(** [\w] *)
Definition is_word (c : N) : bool :=
  (is_digit c || ((65 <=? c) && (c <=? 90)) || ((97 <=? c) && (c <=? 122))
   || (c =? 95))%N.

Fixpoint trim_start (s : list N) : list N :=
  match s with
  | c :: s' => if is_white c then trim_start s' else s
  | [] => []
  end.

(** The value of a code unit as a digit of radix [R], if it is one. *)
Definition digit_in (R : N) (c : N) : option N :=
  let v :=
    if is_digit c then Some (c - 48)%N
    else if ((97 <=? c) && (c <=? 122))%N then Some (c - 87)%N
    else if ((65 <=? c) && (c <=? 90))%N then Some (c - 55)%N
    else None in
  match v with
  | Some d => if (d <? R)%N then Some d else None
  | None => None
  end.

(** The value of the longest prefix of radix-[R] digits; [acc] is [None]
    as long as no digit was read. *)
Fixpoint digits_value (R : N) (acc : option N) (s : list N) : option N :=
  match s with
  | c :: s' =>
      match digit_in R c with
      | Some d => digits_value R (Some (R * default 0 acc + d)%N) s'
      | None => acc
      end
  | [] => acc
  end.

(** [parseInt(string)], no radix given; [None] is [NaN]. *)
Definition parseInt (string : list N) : option Z :=
  let trimmed := trim_start string in
  let '(sign, unsigned) :=
    match trimmed with
    | 45%N :: rest => (-1, rest)
    | 43%N :: rest => (1, rest)
    | _ => (1, trimmed)
    end in
  let '(R, digits) :=
    match unsigned with
    | 48%N :: x :: rest =>
        if ((x =? 120) || (x =? 88))%N then (16%N, rest) else (10%N, unsigned)
    | _ => (10%N, unsigned)
    end in
  match digits_value R None digits with
  | None => None
  | Some mathInt => Some (sign * Z.of_N mathInt)
  end.

(** The second argument [formatWithDelimiters] is given: 0 or 2. *)
Inductive precision := no_decimals | two_decimals.

Definition two_digits (n : Z) : list N :=
  codes (pretty (n / 10)) ++ codes (pretty (n mod 10)).

(** [(number / 100.0).toFixed(precision)] for an integer [number]. *)
Definition toFixed_hundredth (number : Z) (p : precision) : list N :=
  let sign := if number <? 0 then codes "-" else [] in
  let a := Z.abs number in
  match p with
  | two_decimals =>
      sign ++ codes (pretty (a / 100)) ++ codes "." ++ two_digits (a mod 100)
  | no_decimals => sign ++ codes (pretty ((a + 50) / 100))
  end.

(** [s.split(sep)] for a separator of one code unit. *)
Fixpoint split (sep : N) (s : list N) : list (list N) :=
  match s with
  | [] => [[]]
  | c :: s' =>
      if (c =? sep)%N then [] :: split sep s'
      else match split sep s' with
           | part :: parts => (c :: part) :: parts
           | [] => [[c]]
           end
  end.

Fixpoint digit_run (s : list N) : nat :=
  match s with
  | c :: s' => if is_digit c then S (digit_run s') else 0%nat
  | [] => 0%nat
  end.

(** [s.replace(/(\d)(?=(\d\d\d)+(?!\d))/g, '$1' + thousands)]: a digit is
    followed by the separator when the digits behind it, up to the next
    character that is not a digit, are three, six, nine, ... in number.
    ([thousands] holds no [$].) *)
Fixpoint separate (thousands : list N) (s : list N) : list N :=
  match s with
  | [] => []
  | c :: s' =>
      if is_digit c && Nat.ltb 0 (digit_run s')
         && Nat.eqb (digit_run s' mod 3) 0
      then c :: thousands ++ separate thousands s'
      else c :: separate thousands s'
  end.

(** The result is a text; for [NaN] the source returns the number 0, which
    [replace] later turns into the text "0". *)
Definition formatWithDelimiters (number : option Z) (precision : option precision)
    (thousands decimal : option (list N)) : list N :=
  let precision := default two_decimals precision in
  let thousands := default (codes ",") thousands in
  let decimal := default (codes ".") decimal in
  match number with
  | None => codes "0"
  | Some n =>
      let number := toFixed_hundredth n precision in
      let parts := split 46 number in
      let dollars := separate thousands (default [] (parts !! 0%nat)) in
      let cents :=
        match parts !! 1%nat with
        | Some (c :: part) => decimal ++ c :: part
        | _ => []
        end in
      dollars ++ cents
  end.

(** "{{amount_with_comma_separator}} " and the three code units that
    follow it in the source. *)
Definition moneyFormat : list N :=
  codes "{{amount_with_comma_separator}} " ++ [226; 8218; 172]%N.

Fixpoint span (p : N → bool) (s : list N) : list N * list N :=
  match s with
  | c :: s' =>
      if p c then let '(run, rest) := span p s' in (c :: run, rest)
      else ([], s)
  | [] => ([], [])
  end.

(** [/\{\{\s*(\w+)\s*\}\}/] anchored at the front of [s]: the captured name
    and what follows the match. *)
Definition placeholder_here (s : list N) : option (list N * list N) :=
  match s with
  | 123%N :: 123%N :: s1 =>
      let '(_, s2) := span is_white s1 in
      let '(name, s3) := span is_word s2 in
      match name with
      | [] => None
      | _ :: _ =>
          let '(_, s4) := span is_white s3 in
          match s4 with
          | 125%N :: 125%N :: rest => Some (name, rest)
          | _ => None
          end
      end
  | _ => None
  end.

(** The first match in [s]: the text before it, the captured name, the
    text behind it. *)
Fixpoint find_placeholder (s : list N) : option (list N * list N * list N) :=
  match placeholder_here s with
  | Some (name, rest) => Some ([], name, rest)
  | None =>
      match s with
      | [] => None
      | c :: s' =>
          match find_placeholder s' with
          | Some (before, name, rest) => Some (c :: before, name, rest)
          | None => None
          end
      end
  end.

(** [formatMoney(cents, format)] for a number [cents]; [None] is the
    [TypeError] of [formatString.match(placeholderRegex)[1]] when the
    format holds no placeholder. *)
Definition formatMoney (cents : option Z) (format : option (list N))
    : option (list N) :=
  let formatString :=
    match format with
    | Some (c :: f) => c :: f
    | _ => moneyFormat
    end in
  match find_placeholder formatString with
  | None => None
  | Some (before, name, rest) =>
      let value :=
        if decide (name = codes "amount")
        then formatWithDelimiters cents (Some two_decimals) None None
        else if decide (name = codes "amount_no_decimals")
        then formatWithDelimiters cents (Some no_decimals) None None
        else if decide (name = codes "amount_with_comma_separator")
        then formatWithDelimiters cents (Some two_decimals)
               (Some (codes ".")) (Some (codes ","))
        else if decide (name = codes "amount_no_decimals_with_comma_separator")
        then formatWithDelimiters cents (Some no_decimals)
               (Some (codes ".")) (Some (codes ","))
        else [] in
      Some (before ++ value ++ rest)
  end.

(** The element [.price__container [data-price]]: its [data-price]
    attribute and its text. *)
Record priceElement := mkPrice {
  data_price : list N;
  innerText : list N
}.

(** What [updatePriceWithQuantity] finds: the price element and the value
    of the quantity input, each [None] when [querySelector] finds nothing. *)
Record page := mkPage {
  price : option priceElement;
  quantity_value : option (list N)
}.

(** [None] is an uncaught [TypeError]. *)
Definition updatePriceWithQuantity (pg : page) : option page :=
  match price pg, quantity_value pg with
  | Some priceElement, Some value =>
      let priceCents := parseInt (data_price priceElement) in
      let quantity := parseInt value in
      let quantity :=
        match quantity with
        | Some q => if q <=? 0 then Some 1 else Some q
        | None => None
        end in
      let newPrice :=
        match priceCents, quantity with
        | Some p, Some q => Some (p * q)
        | _, _ => None
        end in
      match newPrice with
      | None => Some pg
      | Some _ =>
          match formatMoney newPrice None with
          | Some formattedPrice =>
              Some (mkPage (Some (mkPrice (data_price priceElement) formattedPrice))
                           (quantity_value pg))
          | None => None
          end
      end
  | _, _ => Some pg
  end.

(** The [change] listener, run on the quantity the counter script wrote. *)
Definition on_change (st : Cache.state) (priceElement : priceElement) : option page :=
  updatePriceWithQuantity
    (mkPage (Some priceElement) (Some (codes (Cache.quantity st)))).

End Price.

(** ** Thousands grouping, said from the right *)

Module PriceSpec.

(** Over the digits read from the right: after every three digits the
    separator, as long as a digit follows. *)
Fixpoint from_right (sep_rev : list N) (rev_digits : list N) : list N :=
  match rev_digits with
  | a :: b :: c :: ((_ :: _) as more) =>
      a :: b :: c :: sep_rev ++ from_right sep_rev more
  | few => few
  end.

Definition grouped (sep : list N) (digits : list N) : list N :=
  rev (from_right (rev sep) (rev digits)).

(** An amount of cents, written with thousands and decimal separators. *)
Definition amount (thousands decimal : list N) (cents : Z) : list N :=
  (if cents <? 0 then Price.codes "-" else [])
  ++ grouped thousands (Price.codes (pretty (Z.abs cents / 100)))
  ++ decimal
  ++ Price.codes (pretty (Z.abs cents mod 100 / 10))
  ++ Price.codes (pretty (Z.abs cents mod 100 mod 10)).

(** The three code units behind the placeholder of [moneyFormat], after a
    blank. *)
Definition currency : list N := [32; 226; 8218; 172]%N.

(** The price text for an amount of cents. *)
Definition price_text (cents : Z) : list N :=
  amount (Price.codes ".") (Price.codes ",") cents ++ currency.

(** What ends the digits [parseInt] reads: the end of the text, or a
    character that is no digit and not the [x] of a hexadecimal prefix. *)
Definition stops (rest : list N) : Prop :=
  match rest with
  | [] => True
  | c :: _ => Price.is_digit c = false ∧ c ≠ 120%N ∧ c ≠ 88%N
  end.

End PriceSpec.

(** * Properties *)

(** ** The anchored pattern *)

Section Anchored.
Import Pdf PdfSpec.

Lemma literal_Some p s r : literal p s = Some r ↔ s = p ++ r.
Proof.
  revert s. induction p as [|a p IH]; intros s; simpl.
  - split; congruence.
  - destruct s as [|b s]; [split; discriminate|].
    destruct (Ascii.eqb_spec a b) as [->|Hne].
    + rewrite IH. split; congruence.
    + split; [discriminate|]. intros [= -> _]. done.
Qed.

Lemma literal_app p r : literal p (p ++ r) = Some r.
Proof. by apply literal_Some. Qed.

Lemma spaces_split s : s = (spaces s).1 ++ (spaces s).2.
Proof.
  induction s as [|c s IH]; simpl; [done|].
  destruct (is_space c); [|done].
  destruct (spaces s) as [ws r]; simpl in *. by f_equal.
Qed.

Lemma spaces_run s : Forall (λ a, is_space a = true) (spaces s).1.
Proof.
  induction s as [|c s IH]; simpl; [constructor|].
  destruct (is_space c) eqn:Hc; [|constructor].
  destruct (spaces s) as [ws r]; simpl in *. by constructor.
Qed.

(** The greedy run is the only way to split off white space in front of a
    character that is not white space. *)
Lemma spaces_app ws c r :
  Forall (λ a, is_space a = true) ws → is_space c = false →
  spaces (ws ++ c :: r) = (ws, c :: r).
Proof.
  intros Hws Hc. induction Hws as [|a ws Ha _ IH]; simpl.
  - by rewrite Hc.
  - by rewrite Ha, IH.
Qed.

Lemma page_marker_sound s m r :
  page_marker s = Some (m, r) → PageMarker m ∧ s = m ++ r.
Proof.
  unfold page_marker.
  destruct (literal (units "/Type") s) as [s1|] eqn:H1; [|discriminate].
  apply literal_Some in H1.
  pose proof (spaces_split s1) as Hsplit. pose proof (spaces_run s1) as Hrun.
  destruct (spaces s1) as [ws s2]; simpl in Hsplit, Hrun.
  destruct (literal (units "/Page") s2) as [[|c rest]|] eqn:H2; try discriminate.
  apply literal_Some in H2.
  destruct (Ascii.eqb_spec c "s") as [|Hc]; [discriminate|].
  intros [= <- <-]. split.
  - by exists ws, c.
  - rewrite H1, Hsplit, H2. simpl. by rewrite <- ?app_assoc.
Qed.

(** Every way of matching the pattern at the front of a content is the one
    [page_marker] finds: backtracking into the white-space run cannot
    produce another match. *)
Lemma page_marker_complete m r :
  PageMarker m → page_marker (m ++ r) = Some (m, r).
Proof.
  intros (ws & c & Hws & Hc & ->). unfold page_marker.
  rewrite <- !app_assoc, literal_app.
  assert (spaces (ws ++ units "/Page" ++ [c] ++ r)
          = (ws, units "/Page" ++ [c] ++ r)) as ->
    by (by apply (spaces_app ws "/")).
  rewrite (literal_app (units "/Page") ([c] ++ r)). simpl.
  by destruct (Ascii.eqb_spec c "s").
Qed.

Lemma page_marker_Occurs s :
  is_Some (page_marker s) ↔ Occurs s 0.
Proof.
  split.
  - intros [[m r] H]. apply page_marker_sound in H as [Hm ->].
    exists m. split; [done|]. by exists r.
  - intros (m & Hm & r & Hr). rewrite drop_0 in Hr. subst s.
    rewrite page_marker_complete by done. eauto.
Qed.

Lemma page_marker_length s m r :
  page_marker s = Some (m, r) → (11 ≤ length m)%nat.
Proof.
  intros H. apply page_marker_sound in H as [(ws & c & _ & _ & ->) _].
  rewrite !length_app. simpl. lia.
Qed.

Lemma Occurs_drop s i j : Occurs (drop i s) j ↔ Occurs s (i + j).
Proof.
  unfold Occurs, OccursAt. rewrite drop_drop. done.
Qed.

Lemma Occurs_page_marker s i :
  Occurs s i ↔ is_Some (page_marker (drop i s)).
Proof.
  rewrite page_marker_Occurs, Occurs_drop. by rewrite Nat.add_0_r.
Qed.

End Anchored.

(** ** The global match *)

Section GlobalMatch.
Import Pdf PdfSpec.

Lemma match_from_skip p r : match_from (length p) (p ++ r) = match_from 0 r.
Proof. induction p as [|a p IH]; [done|]. simpl. exact IH. Qed.

Lemma match_from_hit s m r :
  page_marker s = Some (m, r) → match_from 0 s = m :: match_from 0 r.
Proof.
  intros H. pose proof (page_marker_length _ _ _ H) as Hlen.
  pose proof (page_marker_sound _ _ _ H) as [_ ->].
  destruct m as [|c m]; [simpl in Hlen; lia|].
  change (match_from 0 ((c :: m) ++ r))
    with (match page_marker ((c :: m) ++ r) with
          | Some (m0, _) => m0 :: match_from (length m0 - 1) (m ++ r)
          | None => match_from 0 (m ++ r)
          end).
  rewrite H. f_equal. simpl. rewrite Nat.sub_0_r. apply match_from_skip.
Qed.

Lemma match_from_miss c s :
  page_marker (c :: s) = None → match_from 0 (c :: s) = match_from 0 s.
Proof.
  intros H.
  change (match_from 0 (c :: s))
    with (match page_marker (c :: s) with
          | Some (m0, _) => m0 :: match_from (length m0 - 1) s
          | None => match_from 0 s
          end).
  by rewrite H.
Qed.

Lemma Occurs_cons c s i : Occurs (c :: s) (S i) ↔ Occurs s i.
Proof. done. Qed.

Lemma not_Occurs_miss s : ¬ Occurs s 0 → page_marker s = None.
Proof.
  intros H. destruct (page_marker s) eqn:E; [|done].
  destruct H. apply page_marker_Occurs. eauto.
Qed.

Lemma match_from_gap gap s :
  (∀ i, (i < length gap)%nat → ¬ Occurs (gap ++ s) i) →
  match_from 0 (gap ++ s) = match_from 0 s.
Proof.
  induction gap as [|c gap IH]; intros H; [done|].
  rewrite <- app_comm_cons, match_from_miss.
  - apply IH. intros i Hi. rewrite <- (Occurs_cons c). apply H. simpl. lia.
  - apply not_Occurs_miss, H. simpl. lia.
Qed.

Lemma match_from_nothing s :
  (∀ i, ¬ Occurs s i) → match_from 0 s = [].
Proof.
  intros H. rewrite <- (app_nil_r s). rewrite match_from_gap; [done|].
  intros i _. by rewrite app_nil_r.
Qed.

(** The first marker of a content, if it has one. *)
Lemma first_marker s :
  (∀ i, ¬ Occurs s i) ∨
  ∃ gap m rest, s = gap ++ m ++ rest ∧ PageMarker m ∧
                ∀ i, (i < length gap)%nat → ¬ Occurs s i.
Proof.
  induction s as [|c s IH].
  - left. intros i. rewrite Occurs_page_marker, drop_nil.
    intros [? [=]].
  - destruct (page_marker (c :: s)) as [[m r]|] eqn:E.
    + right. apply page_marker_sound in E as [Hm E].
      exists [], m, r. split_and!; [done|done|]. simpl. lia.
    + destruct IH as [IH|(gap & m & rest & -> & Hm & Hgap)].
      * left. intros [|i]; [|by rewrite Occurs_cons].
        rewrite <- page_marker_Occurs, E. intros [? [=]].
      * right. exists (c :: gap), m, rest. split_and!; [done|done|].
        intros [|i] Hi; [|rewrite Occurs_cons; apply Hgap; simpl in Hi; lia].
        rewrite <- page_marker_Occurs, E. intros [? [=]].
Qed.

Lemma Matches_match_from s : Matches s (match_from 0 s).
Proof.
  remember (length s) as n eqn:Hn. revert s Hn.
  induction n as [n IH] using lt_wf_ind. intros s ->.
  destruct (first_marker s) as [Hno|(gap & m & rest & -> & Hm & Hgap)].
  - rewrite match_from_nothing by done. by constructor.
  - rewrite match_from_gap by done.
    rewrite (match_from_hit _ m rest) by by apply page_marker_complete.
    constructor; [done|done|].
    apply (IH (length rest)); [|done].
    destruct Hm as (ws & c & _ & _ & ->).
    rewrite !length_app. simpl. lia.
Qed.

Lemma Matches_unique s ms : Matches s ms → ms = match_from 0 s.
Proof.
  induction 1 as [s Hno|gap m rest ms Hm Hgap _ IH].
  - by rewrite match_from_nothing.
  - rewrite match_from_gap by done.
    rewrite (match_from_hit _ m rest) by by apply page_marker_complete.
    by f_equal.
Qed.

Lemma Matches_markers s ms : Matches s ms → Forall PageMarker ms.
Proof. induction 1; by constructor. Qed.

(** [/Type], white space and [/Page] at the very end of a content: nothing
    follows, so no marker starts there. *)
Lemma no_marker_at_end pre ws :
  Forall (λ a, is_space a = true) ws →
  ¬ Occurs (pre ++ units "/Type" ++ ws ++ units "/Page") (length pre).
Proof.
  intros Hws. rewrite Occurs_page_marker, drop_app_length.
  unfold page_marker. rewrite literal_app.
  assert (spaces (ws ++ units "/Page") = (ws, units "/Page")) as ->
    by (by apply (spaces_app ws "/")).
  intros [? [=]].
Qed.

End GlobalMatch.

(** ** Counting occurrences *)

Section Counting.
Import Pdf PdfSpec.

Lemma filter_fmap_S (P : nat → Prop) `{!∀ i, Decision (P i)} (l : list nat) :
  filter P (S <$> l) = S <$> filter (λ i, P (S i)) l.
Proof.
  induction l as [|x l IH]; [done|].
  rewrite fmap_cons, !filter_cons, IH.
  by destruct (decide (P (S x))).
Qed.

Lemma offsets_cons p c s :
  offsets p (c :: s) = (if p (c :: s) then [0%nat] else []) ++ (S <$> offsets p s).
Proof.
  unfold offsets. simpl length. rewrite <- cons_seq, filter_cons.
  rewrite <- fmap_S_seq, filter_fmap_S. simpl drop.
  destruct (p (c :: s)); simpl; [|done].
  by destruct (decide (true = true)).
Qed.

Lemma length_offsets_cons p c s :
  length (offsets p (c :: s))
  = ((if p (c :: s) then 1 else 0) + length (offsets p s))%nat.
Proof.
  rewrite offsets_cons, length_app, length_fmap. by destruct (p (c :: s)).
Qed.

Lemma marker_here_Occurs s i : marker_here (drop i s) = true ↔ Occurs s i.
Proof.
  rewrite Occurs_page_marker. unfold marker_here.
  destruct (page_marker (drop i s)); split; first [done|eauto|intros [? [=]]].
Qed.

Lemma Occurs_lt s i : Occurs s i → (i < length s)%nat.
Proof.
  intros Hi. apply Occurs_page_marker in Hi as [[m r] H].
  apply page_marker_length in H as Hlen.
  apply page_marker_sound in H as [_ H].
  destruct (decide (i < length s)%nat) as [|Hge]; [done|].
  rewrite drop_ge in H by lia. destruct m; [simpl in Hlen; lia|done].
Qed.

Lemma elem_of_offsets s i : i ∈ offsets marker_here s ↔ Occurs s i.
Proof.
  unfold offsets. rewrite list_elem_of_filter, elem_of_seq, marker_here_Occurs.
  split; [tauto|]. intros H. split; [done|]. apply Occurs_lt in H. lia.
Qed.

Lemma NoOverlap_cons c s : NoOverlap (c :: s) → NoOverlap s.
Proof.
  intros H i m j Hi Hj. rewrite <- (Occurs_cons c).
  apply (H (S i) m (S j)); [exact Hi|lia].
Qed.

(** When no marker starts inside another, the scan finds every marker. *)
Lemma match_from_all s skip :
  (∀ j, (j < skip)%nat → ¬ Occurs s j) → NoOverlap s →
  length (match_from skip s) = length (offsets marker_here s).
Proof.
  revert skip. induction s as [|c s IH]; intros skip Hskip Hno; [done|].
  rewrite length_offsets_cons. unfold marker_here at 1.
  destruct skip as [|k].
  - destruct (page_marker (c :: s)) as [[m r]|] eqn:E.
    + change (match_from 0 (c :: s))
        with (match page_marker (c :: s) with
              | Some (m0, _) => m0 :: match_from (length m0 - 1) s
              | None => match_from 0 s
              end).
      rewrite E. simpl. f_equal. apply IH; [|by eapply NoOverlap_cons].
      intros j Hj. rewrite <- (Occurs_cons c).
      apply page_marker_sound in E as [Hm E].
      apply (Hno 0%nat m (S j)); [|lia].
      split; [done|]. by exists r.
    + rewrite match_from_miss by done. simpl.
      apply IH; [lia|by eapply NoOverlap_cons].
  - rewrite (not_Occurs_miss (c :: s)) by (apply Hskip; lia). simpl.
    apply IH; [|by eapply NoOverlap_cons].
    intros j Hj. rewrite <- (Occurs_cons c). apply Hskip. lia.
Qed.

Lemma offsets_NoDup p s : NoDup (offsets p s).
Proof. apply NoDup_filter, NoDup_seq. Qed.

Lemma occurrences_counted s (occ : list nat) :
  NoDup occ → (∀ i, i ∈ occ ↔ Occurs s i) → NoOverlap s →
  length (match_from 0 s) = length occ.
Proof.
  intros Hnd Hocc Hno. rewrite (match_from_all s 0) by (done || lia).
  apply Permutation_length, NoDup_Permutation; [apply offsets_NoDup|done|].
  intros i. by rewrite elem_of_offsets, Hocc.
Qed.

End Counting.

(** ** The scan finds as many markers as can be kept apart *)

Section Maximal.
Import Pdf PdfSpec.

Lemma page_marker_space a t : is_space a = true → page_marker (a :: t) = None.
Proof.
  intros Ha. unfold page_marker.
  change (literal (units "/Type") (a :: t))
    with (if Ascii.eqb "/" a then literal (units "Type") t else None).
  destruct (Ascii.eqb_spec "/" a) as [<-|]; [discriminate|done].
Qed.

Lemma no_marker_in_spaces ws t j :
  Forall (λ a, is_space a = true) ws → (j < length ws)%nat →
  page_marker (drop j (ws ++ t)) = None.
Proof.
  intros Hws. revert j. induction Hws as [|a ws Ha _ IH]; intros j Hj.
  - simpl in Hj. lia.
  - destruct j as [|j]; simpl.
    + by apply page_marker_space.
    + apply IH. simpl in Hj. lia.
Qed.

(** Inside a marker only its last character can start another one. *)
Lemma overlap_only_last s m r i :
  page_marker s = Some (m, r) → Occurs s i →
  i = 0%nat ∨ (length m - 1 ≤ i)%nat.
Proof.
  intros H Hi. apply page_marker_sound in H as [(ws & c & Hws & _ & ->) ->].
  apply Occurs_page_marker in Hi.
  rewrite !length_app. simpl length.
  destruct (decide (i = 0%nat)) as [|Hi0]; [by left|right].
  destruct (decide (length ws + 10 ≤ i)%nat) as [|Hlt]; [lia|exfalso].
  rewrite <- !app_assoc in Hi.
  do 5 (destruct i as [|i]; [by (done || destruct Hi as [? [=]])|]).
  change (drop (S (S (S (S (S i))))) (units "/Type" ++ ws ++ units "/Page" ++ [c] ++ r))
    with (drop i (ws ++ units "/Page" ++ [c] ++ r)) in Hi.
  destruct (decide (i < length ws)%nat) as [Hin|Hout].
  - rewrite no_marker_in_spaces in Hi by done. by destruct Hi as [? [=]].
  - replace i with (length ws + (i - length ws))%nat in Hi by lia.
    rewrite drop_app_add in Hi.
    remember (i - length ws)%nat as j eqn:Hj.
    assert (j < 5)%nat as Hj5 by lia. clear Hj Hlt Hout Hi0.
    do 5 (destruct j as [|j]; [by destruct Hi as [? [=]]|]). lia.
Qed.

Lemma OccursAt_unique s i m m' : OccursAt s i m → OccursAt s i m' → m = m'.
Proof.
  intros (Hm & r & Hr) (Hm' & r' & Hr').
  pose proof (page_marker_complete m r Hm) as E.
  pose proof (page_marker_complete m' r' Hm') as E'.
  rewrite <- Hr in E. rewrite <- Hr' in E'. congruence.
Qed.

Lemma OccursAt_length s i m : OccursAt s i m → (11 ≤ length m)%nat.
Proof.
  intros ((ws & c & _ & _ & ->) & _). rewrite !length_app. simpl. lia.
Qed.

(** A marker that starts later also ends later. *)
Lemma ends_in_order s m r i mi :
  page_marker s = Some (m, r) → OccursAt s i mi →
  (length m ≤ i + length mi)%nat.
Proof.
  intros H Hi. destruct (overlap_only_last s m r i H) as [->|Hlast].
  - by exists mi.
  - apply page_marker_sound in H as [Hm ->].
    assert (mi = m) as ->; [|lia].
    eapply OccursAt_unique; [done|]. split; [done|]. by exists r.
  - apply OccursAt_length in Hi. lia.
Qed.

Lemma Disjoint_from_le s a b js : (b ≤ a)%nat → Disjoint s a js → Disjoint s b js.
Proof.
  intros Hab. destruct js as [|j js]; [done|].
  intros [Hj H]. split; [lia|done].
Qed.

Lemma Disjoint_tail c s k js :
  Disjoint (c :: s) (S k) js →
  ∃ js', length js' = length js ∧ Disjoint s k js'.
Proof.
  revert k. induction js as [|j js IH]; intros k; [by exists []|].
  intros [Hj (m & Hm & Hrest)]. destruct j as [|j]; [lia|].
  destruct (IH (j + length m)%nat Hrest) as (js' & Hlen & Hjs').
  exists (j :: js'). split; [simpl; lia|].
  split; [lia|]. by exists m.
Qed.

Lemma Disjoint_nil k js : Disjoint [] k js → js = [].
Proof.
  destruct js as [|j js]; [done|]. intros [_ (m & Hm & _)].
  apply OccursAt_length in Hm as Hlen. destruct Hm as (_ & r & Hr).
  rewrite drop_nil in Hr. destruct m; [simpl in Hlen; lia|done].
Qed.

Lemma match_from_most s skip js :
  Disjoint s skip js → (length js ≤ length (match_from skip s))%nat.
Proof.
  revert skip js. induction s as [|c s IH]; intros skip js Hjs.
  - apply Disjoint_nil in Hjs as ->. simpl. lia.
  - destruct skip as [|k].
    + destruct (page_marker (c :: s)) as [[m r]|] eqn:E.
      * rewrite (match_from_hit _ m r E).
        destruct js as [|j js]; [simpl; lia|].
        destruct Hjs as [_ (mj & Hmj & Hrest)].
        apply (Disjoint_from_le _ _ (S (length m - 1))) in Hrest.
        2:{ pose proof (ends_in_order _ _ _ _ _ E Hmj).
            pose proof (page_marker_length _ _ _ E). lia. }
        apply Disjoint_tail in Hrest as (js' & Hlen & Hjs').
        apply IH in Hjs'. cbn [length]. rewrite <- Hlen.
        pose proof (page_marker_sound _ _ _ E) as [_ Hs].
        pose proof (page_marker_length _ _ _ E) as Hm.
        destruct m as [|c' m]; [simpl in Hm; lia|].
        injection Hs as <- ->.
        revert Hjs'. simpl length. rewrite Nat.sub_0_r, match_from_skip. lia.
      * rewrite match_from_miss by done.
        destruct js as [|j js]; [simpl; lia|].
        assert (Disjoint (c :: s) 1 (j :: js)) as Hjs1.
        { destruct Hjs as [_ (mj & Hmj & Hrest)]. split; [|by exists mj].
          destruct j as [|j]; [|lia].
          assert (is_Some (page_marker (c :: s))) as [? ?]; [|congruence].
          apply page_marker_Occurs. by exists mj. }
        apply Disjoint_tail in Hjs1 as (js' & Hlen & Hjs').
        apply IH in Hjs'. lia.
    + apply Disjoint_tail in Hjs as (js' & Hlen & Hjs').
      apply IH in Hjs'. simpl. lia.
Qed.

Lemma Disjoint_behind gap s js :
  Disjoint s 0 js →
  ∃ js', length js' = length js ∧ Disjoint (gap ++ s) (length gap) js'.
Proof.
  intros Hjs. induction gap as [|c gap (js' & Hlen & IH)]; [by exists js|].
  exists (S <$> js'). rewrite length_fmap. split; [done|].
  clear Hlen Hjs. simpl. generalize (length gap) IH. clear IH.
  induction js' as [|j js' IHjs]; intros k; [done|].
  intros [Hj (m & Hm & Hrest)]. split; [lia|]. exists m. split; [done|].
  by apply (IHjs (j + length m)%nat).
Qed.

Lemma Matches_Disjoint s ms :
  Matches s ms → ∃ js, length js = length ms ∧ Disjoint s 0 js.
Proof.
  induction 1 as [s _|gap m rest ms Hm _ _ (js & Hlen & IH)]; [by exists []|].
  destruct (Disjoint_behind (gap ++ m) rest js IH) as (js' & Hlen' & Hjs').
  exists (length gap :: js'). split; [simpl; lia|].
  split; [lia|]. exists m. split.
  - split; [done|]. exists rest. by rewrite drop_app_length.
  - rewrite <- app_assoc, length_app in Hjs'. exact Hjs'.
Qed.

End Maximal.

(** ** The estimator's results *)

Section Estimator.
Import Pdf PdfSpec.

Lemma countPdfPages_matches file :
  countPdfPages file
  = match match_from 0 (readAsBinaryString file) with
    | [] => 1
    | ms => Z.of_nat (length ms)
    end.
Proof.
  unfold countPdfPages, String_match.
  by destruct (match_from 0 (readAsBinaryString file)).
Qed.

Lemma countPdfPages_positive file : 1 ≤ countPdfPages file.
Proof.
  rewrite countPdfPages_matches.
  destruct (match_from 0 (readAsBinaryString file)); simpl length; lia.
Qed.

Lemma analyzeFile_positive file : 1 ≤ analyzeFile file.
Proof.
  unfold analyzeFile. destruct (String.eqb _ _); [apply countPdfPages_positive|lia].
Qed.

(** C3, as the specification words it, fails.  The content below holds the
    literal [/Type /Page] twice, neither time followed by an [s] (the second
    one ends the content), the two do not overlap, and [/Type /Pages] does
    not occur; the estimator returns 1, not 2, because the pattern needs a
    character behind [/Page]. *)
Lemma literal_marker_at_end_uncounted :
  let content := "/Type /PageX/Type /Page" in
  length (offsets literal_marker (units content)) = 2%nat ∧
  apart 11 (offsets literal_marker (units content)) ∧
  offsets literal_container (units content) = [] ∧
  estimate content = 1 ∧ estimate content ≠ 2.
Proof.
  split_and!; try by vm_compute.
  intros i j. vm_compute offsets.
  rewrite !elem_of_cons, !elem_of_nil. lia.
Qed.

(** In the other direction, markers written without the space are counted
    although the literal [/Type /Page] does not occur at all. *)
Example unspaced_markers_counted :
  let content := "/Type/Page>>/Type/Page>>" in
  offsets literal_marker (units content) = [] ∧ estimate content = 2.
Proof. by vm_compute. Qed.

(** C3, amended: when the markers of the pattern ([/Type], optional white
    space, [/Page], one further character other than [s]) start at exactly
    the [k >= 1] offsets [occ] of the content and none starts inside
    another, [countPdfPages] returns [k]. *)
Theorem countPdfPages_counts_markers (file : File) (occ : list nat) :
  let content := readAsBinaryString file in
  NoDup occ →
  (∀ i, i ∈ occ ↔ Occurs content i) →
  NoOverlap content →
  (1 ≤ length occ)%nat →
  countPdfPages file = Z.of_nat (length occ).
Proof.
  intros content Hnd Hocc Hno Hk.
  rewrite countPdfPages_matches.
  pose proof (occurrences_counted content occ Hnd Hocc Hno) as Hlen.
  fold content. destruct (match_from 0 content); [simpl in Hlen; lia|].
  by rewrite Hlen.
Qed.

Lemma countPdfPages_counts_markers_witness :
  countPdfPages (mkFile "a.pdf" "application/pdf"
                   "<< /Type /Pages >> /Type /Page /Type/PageX")
  = 2.
Proof.
  apply (countPdfPages_counts_markers
           (mkFile "a.pdf" "application/pdf"
              "<< /Type /Pages >> /Type /Page /Type/PageX")
           [19; 31]%nat).
  - apply NoDup_cons. split; [|apply NoDup_singleton].
    rewrite list_elem_of_singleton. lia.
  - intros i. rewrite <- elem_of_offsets. by vm_compute offsets.
  - intros i m j Hi Hj Hocc.
    assert (Occurs (readAsBinaryString (mkFile "a.pdf" "application/pdf"
              "<< /Type /Pages >> /Type /Page /Type/PageX")) i) as Hi'
      by (by exists m).
    apply elem_of_offsets in Hocc, Hi'.
    vm_compute offsets in Hocc, Hi'.
    rewrite !elem_of_cons, elem_of_nil in Hocc, Hi'.
    assert (i = 19%nat ∧ j = 31%nat) as [-> ->] by lia.
    assert (m = units "/Type /Page ") as ->; [|simpl in Hj; lia].
    eapply OccursAt_unique; [exact Hi|].
    split; [|by exists (units "/Type/PageX")].
    exists [" "%char], " "%char. split_and!; [|done..].
    by repeat constructor.
  - simpl. lia.
Defined.



(** C10: the estimator counts the successive non-overlapping markers of the
    content, a marker being [/Type], zero or more white-space characters
    (line breaks included), [/Page] and one further character other than
    [s].  The matched texts [ms] are determined by the content; no family of
    markers kept apart from one another is larger; and where the content
    ends right behind [/Page] no marker starts. *)
Theorem countPdfPages_successive_markers (file : File) :
  let content := readAsBinaryString file in
  ∃ ms,
    Matches content ms ∧
    (∀ ms', Matches content ms' → ms' = ms) ∧
    countPdfPages file = match ms with [] => 1 | _ => Z.of_nat (length ms) end ∧
    (∃ js, length js = length ms ∧ Disjoint content 0 js) ∧
    (∀ js, Disjoint content 0 js → (length js ≤ length ms)%nat) ∧
    (∀ pre ws, Forall (λ a, is_space a = true) ws →
               content = pre ++ units "/Type" ++ ws ++ units "/Page" →
               ¬ Occurs content (length pre)).
Proof.
  intros content. exists (match_from 0 content). split_and!.
  - apply Matches_match_from.
  - apply Matches_unique.
  - rewrite countPdfPages_matches. fold content.
    by destruct (match_from 0 content).
  - apply Matches_Disjoint, Matches_match_from.
  - apply match_from_most.
  - intros pre ws Hws ->. by apply no_marker_at_end.
Qed.

(** White space of the pattern: none, a blank, a line break. *)
Example markers_with_white_space :
  estimate "/Type/Page>> /Type /Page
/Type
/Page /Type	 /Page/" = 4.
Proof. by vm_compute. Qed.

(** Two literal markers back to back: the character behind the first one
    belongs to its match, so the second is not found. *)
Example adjacent_markers_share_a_character :
  let content := "/Type /Page/Type /Page " in
  offsets literal_marker (units content) = [0; 11]%nat ∧ estimate content = 1.
Proof. by vm_compute. Qed.

(** The container object is never a marker, and case matters. *)
Example container_is_no_marker :
  estimate "/Type /Pages" = 1 ∧ estimate "/Type /Pages /Type /PageS" = 1 ∧
  match_from 0 (units "/Type /Pages /Type /PageS") = [units "/Type /PageS"].
Proof. by vm_compute. Qed.

End Estimator.

(** ** The cache operations *)

Section CacheOps.
Import Json Cache.

Lemma cache_save st : cache (save st) = cache st.
Proof. done. Qed.

Lemma cache_setKey key v st : cache (setKey key v st) = <[key := v]> (cache st).
Proof. done. Qed.

Lemma localStorage_save st :
  localStorage (save st) !! localStorageKey
  = Some (JSON_stringify (JObj (to_json <$> cache st))).
Proof. unfold save. simpl. apply lookup_insert_eq. Qed.

Lemma hasKey_true key st : hasKey key st = true ↔ is_Some (cache st !! key).
Proof. unfold hasKey. apply bool_decide_eq_true. Qed.

Lemma hasKey_false key st : hasKey key st = false ↔ cache st !! key = None.
Proof.
  unfold hasKey. rewrite bool_decide_eq_false. symmetry. apply eq_None_not_Some.
Qed.

Lemma elem_of_Object_keys (m : gmap string value) k :
  k ∈ Object_keys m ↔ is_Some (m !! k).
Proof.
  unfold Object_keys. rewrite list_elem_of_fmap. split.
  - intros ([k' v] & -> & H). apply elem_of_map_to_list in H. by exists v.
  - intros [v H]. exists (k, v). split; [done|]. by apply elem_of_map_to_list.
Qed.

(** The loop of [clearExcept] over any list of keys. *)
Lemma lookup_prune (exceptKeys keys : list string) (m : gmap string value) k :
  foldl (λ m key, if bool_decide (key ∈ exceptKeys) then m else delete key m)
        m keys !! k
  = if decide (k ∈ keys ∧ k ∉ exceptKeys) then None else m !! k.
Proof.
  revert m. induction keys as [|key keys IH]; intros m.
  - destruct (decide (k ∈ [] ∧ k ∉ exceptKeys)) as [[H _]|_]; [|done].
    by apply elem_of_nil in H.
  - simpl foldl. rewrite IH.
    destruct (decide (k ∈ keys ∧ k ∉ exceptKeys)) as [[H1 H2]|H];
      destruct (decide (k ∈ key :: keys ∧ k ∉ exceptKeys)) as [[H3 H4]|H'];
      try done.
    + destruct H'. split; [by right|done].
    + apply elem_of_cons in H3 as [->|H3]; [|by destruct H].
      rewrite bool_decide_eq_false_2 by done. apply lookup_delete_eq.
    + destruct (bool_decide_reflect (key ∈ exceptKeys)) as [Hin|Hout]; [done|].
      apply lookup_delete_ne. intros ->. destruct H'. split; [by left|done].
Qed.

Lemma lookup_clearExcept (exceptKeys : list string) st k :
  cache (clearExcept exceptKeys st) !! k
  = if decide (k ∈ exceptKeys) then cache st !! k else None.
Proof.
  unfold clearExcept. rewrite cache_save. simpl. rewrite lookup_prune.
  repeat case_decide; try done.
  - tauto.
  - destruct (cache st !! k) eqn:E; [|done].
    exfalso. rewrite elem_of_Object_keys, E in *. naive_solver.
Qed.

Lemma clearExcept_other (exceptKeys : list string) st :
  quantity (clearExcept exceptKeys st) = quantity st ∧
  changes (clearExcept exceptKeys st) = changes st ∧
  suspended (clearExcept exceptKeys st) = suspended st.
Proof. done. Qed.

Lemma to_json_of_json v : of_json (to_json v) = Some v.
Proof. by destruct v. Qed.

Lemma as_cache_encoded (c : gmap string value) :
  as_cache (JObj (to_json <$> c)) = Some c.
Proof.
  unfold as_cache. case_decide as H.
  - f_equal. apply map_eq. intros k.
    rewrite lookup_omap, lookup_fmap.
    destruct (c !! k); simpl; [apply to_json_of_json|done].
  - destruct H. intros k j. rewrite lookup_fmap.
    destruct (c !! k); simpl; intros [= <-]. rewrite to_json_of_json. eauto.
Qed.

(** What the model of the store takes from the platform: parsing a
    serialized value gives the value back. *)
Lemma JSON_parse_stringify j : JSON_parse (Some (JSON_stringify j)) = Some j.
Proof. done. Qed.

Lemma load_encoded ls j :
  ls !! localStorageKey = Some (JSON_stringify (JObj j)) → load ls = JObj j.
Proof. unfold load. by intros ->. Qed.

End CacheOps.

(** ** Aggregate recompute and publishing *)

Section Recompute.
Import Json Cache Controller ControllerSpec.

Lemma or_default_0 entry : or_default 0 entry = contribution entry.
Proof.
  destruct entry as [[|n]|]; simpl; try done.
  destruct (Z.eqb_spec n 0); lia.
Qed.

Lemma or_default_1 n : 0 ≤ n → or_default 1 (Some (Num n)) = Z.max n 1.
Proof. intros Hn. simpl. destruct (Z.eqb_spec n 0); lia. Qed.

Lemma reduce_sum (c : gmap string value) (keys : list string) acc :
  foldl (λ acc pageCount, acc + pageCount) acc
        (map (λ key, or_default 0 (c !! key)) keys)
  = acc + aggregate c keys.
Proof.
  revert acc. induction keys as [|key keys IH]; intros acc; simpl; [lia|].
  rewrite IH, or_default_0. lia.
Qed.

Lemma getPageCount_fst files st :
  (getPageCount files st).1 = aggregate (cache st) (serverId <$> files).
Proof. unfold getPageCount, getKey. simpl. by rewrite reduce_sum. Qed.

Lemma getPageCount_snd files st :
  (getPageCount files st).2 = clearExcept (serverId <$> files) st.
Proof. done. Qed.

Lemma updatePageCount_eq files st :
  updatePageCount files st
  = publish (or_default 1 (Some (Num (aggregate (cache st) (serverId <$> files)))))
            (clearExcept (serverId <$> files) st).
Proof.
  unfold updatePageCount.
  pose proof (getPageCount_fst files st) as H1.
  pose proof (getPageCount_snd files st) as H2.
  destruct (getPageCount files st) as [n st']. simpl in H1, H2. by subst.
Qed.

Lemma lookup_updatePageCount files st k :
  cache (updatePageCount files st) !! k
  = if decide (k ∈ serverId <$> files) then cache st !! k else None.
Proof. rewrite updatePageCount_eq. apply lookup_clearExcept. Qed.

Lemma persisted_save st : persisted (save st).
Proof. exact (localStorage_save st). Qed.

Lemma persisted_updatePageCount files st : persisted (updatePageCount files st).
Proof. rewrite updatePageCount_eq. apply persisted_save. Qed.

Lemma aggregate_nonneg (c : gmap string value) ids :
  (∀ k n, c !! k = Some (Num n) → 0 ≤ n) → 0 ≤ aggregate c ids.
Proof.
  intros Hc. induction ids as [|id ids IH]; simpl; [lia|].
  destruct (c !! id) as [[|n]|] eqn:E; simpl; try lia.
  apply Hc in E. lia.
Qed.

(** C5: aggregate recompute returns the sum, over the identifiers of the
    file list, of the cached counts (a pending or missing entry adds 0), and
    leaves in the cache exactly the entries whose keys were present and are
    in the file list: keys outside the list are deleted, no key is added and
    no kept value changes.  The pruned mapping is written to the store. *)
Theorem getPageCount_sums_and_prunes (files : list Item) (st : state) :
  let ids := serverId <$> files in
  let st' := (getPageCount files st).2 in
  (getPageCount files st).1 = aggregate (cache st) ids ∧
  (∀ k, cache st' !! k = if decide (k ∈ ids) then cache st !! k else None) ∧
  dom (cache st') = dom (cache st) ∩ list_to_set ids ∧
  persisted st' ∧
  quantity st' = quantity st ∧ changes st' = changes st ∧
  suspended st' = suspended st.
Proof.
  intros ids st'. split_and!; try done.
  - apply getPageCount_fst.
  - intros k. apply lookup_clearExcept.
  - apply set_eq. intros k.
    rewrite elem_of_intersection, !elem_of_dom, elem_of_list_to_set.
    unfold st'. rewrite getPageCount_snd, lookup_clearExcept.
    case_decide; [tauto|]. split; [by intros [? [=]]|tauto].
  - apply persisted_save.
Qed.

(** The pruning scenario of the specification. *)
Example prune_A_B_C :
  let st := mkState {[ "A" := Num 2; "B" := Num 3; "C" := Null ]} ∅ "1" [] [] in
  let files := [mkItem "B" (inr "B"); mkItem "C" (inr "C")] in
  (getPageCount files st).1 = 3 ∧
  cache (getPageCount files st).2 = {[ "B" := Num 3; "C" := Null ]}.
Proof. split; by vm_compute. Qed.

(** C7: for a non-negative aggregate, publishing writes [max(aggregate, 1)]
    into the quantity field, so an aggregate of 0 is shown as 1, and the
    change notification is fired after the write: its listeners see the
    new value. *)
Theorem updatePageCount_publishes_max (files : list Item) (st : state) :
  let pageCount := (getPageCount files st).1 in
  0 ≤ pageCount →
  quantity (updatePageCount files st) = pretty (Z.max pageCount 1) ∧
  changes (updatePageCount files st) = changes st ++ [pretty (Z.max pageCount 1)].
Proof.
  intros pageCount Hpos. unfold pageCount in *.
  rewrite updatePageCount_eq. rewrite getPageCount_fst in *.
  rewrite or_default_1 by done. done.
Qed.

Lemma updatePageCount_publishes_max_witness :
  quantity (updatePageCount [] (mkState ∅ ∅ "7" [] [])) = "1" ∧
  changes (updatePageCount [] (mkState ∅ ∅ "7" [] [])) = ["1"].
Proof.
  apply (updatePageCount_publishes_max [] (mkState ∅ ∅ "7" [] [])).
  vm_compute. discriminate.
Defined.

End Recompute.

(** ** Loading and the persistence round trip *)

Section Persistence.
Import Json Cache Controller ControllerSpec.


(** An array is an object for [typeof] and passes the test of [load()]: a
    payload that parses to an array is kept as the cache object. *)
Lemma load_keeps_array ls l :
  ls !! localStorageKey = Some (Wellformed (JArr l)) → load ls = JArr l.
Proof. unfold load. by intros ->. Qed.

Example load_scalars :
  load {[ localStorageKey := Wellformed (JNum 4) ]} = JObj ∅ ∧
  load {[ localStorageKey := Wellformed (JStr "x") ]} = JObj ∅ ∧
  load {[ localStorageKey := Wellformed (JBool true) ]} = JObj ∅ ∧
  load {[ localStorageKey := Wellformed JNull ]} = JObj ∅ ∧
  load {[ localStorageKey := Malformed "{oops" ]} = JObj ∅ ∧
  load ∅ = JObj ∅.
Proof. by vm_compute. Qed.


End Persistence.

(** ** The lifecycle events *)

Section Lifecycle.
Import Json Cache Controller ControllerSpec.

(** C2, as stated, fails: handling init prunes the cache.  With a cached
    entry whose file the widget no longer lists, the cache mapping after
    init differs from the one before. *)
Lemma init_prunes_cache :
  let st := mkState {[ "kept" := Num 2; "gone" := Num 3 ]} ∅ "1" [] [] in
  let files := [mkItem "kept" (inr "kept")] in
  cache (handle (FilePond_init files) st) = {[ "kept" := Num 2 ]} ∧
  cache (handle (FilePond_init files) st) ≠ cache st.
Proof.
  split; [by vm_compute|].
  intros H. apply (f_equal (λ c, c !! "gone")) in H. by vm_compute in H.
Qed.

(** C2, amended: on init the controller recomputes the aggregate from the
    cache as it is and publishes it; it adds no entry and changes no value,
    but it prunes: afterwards the cache holds exactly the previous entries
    whose keys are in the reported file list, so the mapping is unchanged
    exactly when every cached key is in that list. *)
Theorem init_publishes_and_prunes (files : list Item) (st : state) :
  let ids := serverId <$> files in
  let st' := handle (FilePond_init files) st in
  quantity st' = pretty (or_default 1 (Some (Num (aggregate (cache st) ids)))) ∧
  changes st' = changes st ++ [quantity st'] ∧
  (∀ k, cache st' !! k = if decide (k ∈ ids) then cache st !! k else None) ∧
  (cache st' = cache st ↔ ∀ k, is_Some (cache st !! k) → k ∈ ids).
Proof.
  intros ids st'. unfold st'. simpl handle.
  assert (∀ k, cache (updatePageCount files st) !! k
               = if decide (k ∈ ids) then cache st !! k else None) as Hlook
    by apply lookup_updatePageCount.
  split_and!.
  - by rewrite updatePageCount_eq.
  - by rewrite updatePageCount_eq.
  - done.
  - split.
    + intros Heq k [v Hk]. specialize (Hlook k). rewrite Heq, Hk in Hlook.
      by case_decide.
    + intros Hall. apply map_eq. intros k. rewrite Hlook.
      case_decide as Hk; [done|]. destruct (cache st !! k) eqn:E; [|done].
      destruct Hk. apply Hall. by rewrite E.
Qed.

(** C9: a processed-file event whose [detail.file.file] is not a [File]
    (after a reload it is only the identifier) changes nothing: not the
    cache, not the store, not the quantity field, no notification is fired
    and no analysis is started. *)
Theorem processfile_without_content (id name : string) (st : state) :
  handle (FilePond_processfile (mkItem id (inr name))) st = st.
Proof. done. Qed.

End Lifecycle.

(** ** Removal during an analysis *)

Section Race.
Import Json Cache Controller ControllerSpec.

Lemma absent_updatePageCount F files st :
  cache st !! F = None → cache (updatePageCount files st) !! F = None.
Proof. intros H. rewrite lookup_updatePageCount, H. by case_decide. Qed.

Lemma absent_addFile_resume F t pageCount files st :
  cache st !! F = None →
  cache (addFile_resume t pageCount files st) !! F = None.
Proof.
  intros H. unfold addFile_resume.
  destruct (hasKey (task_key t) st) eqn:Hhas; [|done].
  apply absent_updatePageCount. rewrite cache_setKey.
  rewrite lookup_insert_ne; [done|]. intros <-.
  apply hasKey_true in Hhas as [? Hsome]. congruence.
Qed.

(** No handler but the start of an analysis of [F] brings [F] into the
    cache. *)
Lemma handle_keeps_absent F e st :
  starts_analysis F e = false →
  cache st !! F = None → cache (handle e st) !! F = None.
Proof.
  intros He H. destruct e as [files|detail|files|i files|i]; simpl in *.
  - by apply absent_updatePageCount.
  - unfold addFile. destruct (file detail); [|done].
    simpl. rewrite lookup_insert_ne; [done|].
    intros Heq. by apply String.eqb_neq in He.
  - by apply absent_updatePageCount.
  - destruct (suspended st !! i); [|done]. by apply absent_addFile_resume.
  - destruct (suspended st !! i); [|done]. by destruct (String.eqb _ _).
Qed.

Lemma run_app es1 es2 st : run (es1 ++ es2) st = run es2 (run es1 st).
Proof. apply foldl_app. Qed.

Lemma run_keeps_absent F es st :
  Forall (λ e, starts_analysis F e = false) es →
  cache st !! F = None → cache (run es st) !! F = None.
Proof.
  intros Hes. revert st. induction Hes as [|e es He _ IH]; intros st H; [done|].
  apply IH. by apply handle_keeps_absent.
Qed.

Lemma removefile_drops F files st :
  F ∉ serverId <$> files →
  cache (handle (FilePond_removefile files) st) !! F = None.
Proof.
  intros HF. change (handle (FilePond_removefile files) st)
    with (updatePageCount files st).
  rewrite lookup_updatePageCount. by case_decide.
Qed.

(** A completion that finds its key gone only leaves the list of suspended
    calls. *)
Lemma stale_completion i t files st :
  suspended st !! i = Some t → cache st !! task_key t = None →
  handle (analysis_done i files) st
  = set_suspended (delete i (suspended st)) st.
Proof.
  intros Hi Hk. simpl. rewrite Hi. unfold addFile_resume.
  assert (hasKey (task_key t) (set_suspended (delete i (suspended st)) st)
          = false) as -> by by apply hasKey_false.
  done.
Qed.

(** Every handler that changes the cache writes it to the store. *)
Lemma handle_persisted e st : persisted st → persisted (handle e st).
Proof.
  intros H. destruct e as [files|detail|files|i files|i]; simpl.
  - apply persisted_updatePageCount.
  - unfold addFile. destruct (file detail); [|done].
    exact (persisted_save _).
  - apply persisted_updatePageCount.
  - destruct (suspended st !! i); [|done]. unfold addFile_resume.
    destruct (hasKey _ _); [apply persisted_updatePageCount|done].
  - destruct (suspended st !! i); [|done]. by destruct (String.eqb _ _).
Qed.

Lemma run_persisted es st : persisted st → persisted (run es st).
Proof.
  revert st. induction es as [|e es IH]; intros st H; [done|].
  apply IH. by apply handle_persisted.
Qed.

(** C1: the analysis of [F] starts (the key is set to the pending marker and
    the call is suspended); later a removal event is handled whose file list
    no longer has [F]; then, whatever else is handled in between and
    afterwards short of a new analysis of [F], the resumed analysis finds
    the key absent, changes nothing, and the final cache, in memory and in
    the store, has no entry for [F]. *)
Theorem removal_during_analysis_wins
    (st0 : state) (F : string) (f : Pdf.File) (before : list event)
    (files : list Item) (between : list event) (i : nat) (f' : Pdf.File)
    (files' : list Item) (after : list event) :
  let started := handle (FilePond_processfile (mkItem F (inl f))) st0 in
  let resuming :=
    run between (run (before ++ [FilePond_removefile files]) started) in
  let resumed := handle (analysis_done i files') resuming in
  let final := run after resumed in
  F ∉ serverId <$> files →
  Forall (λ e, starts_analysis F e = false) between →
  Forall (λ e, starts_analysis F e = false) after →
  suspended resuming !! i = Some (mkTask F f') →
  getKey F started = Some Null ∧
  mkTask F f ∈ suspended started ∧
  hasKey F resuming = false ∧
  resumed = set_suspended (delete i (suspended resuming)) resuming ∧
  cache final !! F = None ∧
  load (localStorage final) = JObj (to_json <$> cache final).
Proof.
  intros started resuming resumed final HF Hbetween Hafter Hi.
  assert (cache resuming !! F = None) as Hgone.
  { unfold resuming. apply run_keeps_absent; [done|].
    rewrite run_app. by apply removefile_drops. }
  assert (resumed = set_suspended (delete i (suspended resuming)) resuming)
    as Hres by (by apply (stale_completion i (mkTask F f'))).
  split_and!.
  - unfold started, getKey. simpl. apply lookup_insert_eq.
  - unfold started. simpl. set_solver.
  - by apply hasKey_false.
  - done.
  - unfold final. apply run_keeps_absent; [done|]. by rewrite Hres.
  - apply load_encoded. unfold final, resumed, resuming.
    apply run_persisted, handle_persisted, run_persisted.
    rewrite run_app. exact (persisted_updatePageCount files _).
Qed.

End Race.

(** ** What holds in every state the script can reach *)

Section Invariants.
Import Json Cache Controller ControllerSpec.

Lemma aggregate_pruned files (ids : list string) st :
  ids ⊆ serverId <$> files →
  aggregate (cache (updatePageCount files st)) ids = aggregate (cache st) ids.
Proof.
  induction ids as [|id ids IH]; intros Hsub; [done|]. cbn [aggregate].
  rewrite lookup_updatePageCount, decide_True by set_solver.
  rewrite IH by set_solver. done.
Qed.

(** X3: recomputing the aggregate twice over the same file list gives the
    same total, and the second pass leaves the cache as the first pass left
    it: pruning has nothing more to delete. *)
Lemma getPageCount_idempotent files st :
  let once := getPageCount files st in
  let twice := getPageCount files once.2 in
  twice.1 = once.1 ∧ cache twice.2 = cache once.2.
Proof.
  intros once twice. subst twice once.
  rewrite !getPageCount_fst, !getPageCount_snd. split.
  - pose proof (aggregate_pruned files (serverId <$> files) st) as H.
    rewrite updatePageCount_eq in H. apply H. done.
  - apply map_eq. intros k. rewrite !lookup_clearExcept.
    by case_decide.
Qed.

Lemma counts_positive_updatePageCount files st :
  counts_positive st → counts_positive (updatePageCount files st).
Proof.
  intros H k n. rewrite lookup_updatePageCount.
  case_decide; [apply H|done].
Qed.

Lemma counts_positive_setKey key v st :
  counts_positive st → (∀ n, v = Num n → 1 ≤ n) →
  counts_positive (setKey key v st).
Proof.
  intros H Hv k n. rewrite cache_setKey.
  destruct (decide (key = k)) as [->|Hne].
  - rewrite lookup_insert_eq. intros [= ->]. by apply Hv.
  - rewrite lookup_insert_ne by done. apply H.
Qed.

Lemma handle_counts_positive e st :
  counts_positive st → counts_positive (handle e st).
Proof.
  intros H. destruct e as [files|detail|files|i files|i]; simpl.
  - by apply counts_positive_updatePageCount.
  - unfold addFile. destruct (file detail); [|done].
    apply (counts_positive_setKey _ Null st H). by intros n [=].
  - by apply counts_positive_updatePageCount.
  - destruct (suspended st !! i) as [t|]; [|done]. unfold addFile_resume.
    destruct (hasKey _ _); [|done].
    apply counts_positive_updatePageCount.
    apply (counts_positive_setKey _ _ (set_suspended _ st) H).
    intros n [= <-]. apply analyzeFile_positive.
  - destruct (suspended st !! i); [|done]. by destruct (String.eqb _ _).
Qed.

Lemma run_counts_positive es st :
  counts_positive st → counts_positive (run es st).
Proof.
  revert st. induction es as [|e es IH]; intros st H; [done|].
  apply IH. by apply handle_counts_positive.
Qed.

(** The aggregate the script computes is never negative in such a state,
    so what it publishes is always [max(aggregate, 1)]. *)
Lemma aggregate_reachable es st0 files :
  counts_positive st0 → 0 ≤ (getPageCount files (run es st0)).1.
Proof.
  intros H. rewrite getPageCount_fst. apply aggregate_nonneg.
  intros k n Hk. apply (run_counts_positive es) in H. apply H in Hk. lia.
Qed.

End Invariants.

(** ** The scenarios of the specification *)

Section Scenarios.
Import Json Cache Controller ControllerSpec Scenario.

Lemma removal_during_analysis_wins_witness :
  let final :=
    run [FilePond_processfile s1; FilePond_processfile s2;
         FilePond_removefile [s2]; analysis_done 1 [s2];
         analysis_done 0 [s2]] fresh in
  cache final !! "s1" = None ∧
  load (localStorage final) = JObj (to_json <$> cache final).
Proof.
  destruct (removal_during_analysis_wins fresh "s1" H1
              [FilePond_processfile s2] [s2] [analysis_done 1 [s2]]
              0 H1 [s2] [])
    as (_ & _ & _ & _ & Hcache & Hstore).
  - intros Hin. apply list_elem_of_singleton in Hin. discriminate Hin.
  - by repeat constructor.
  - constructor.
  - reflexivity.
  - split; [exact Hcache|exact Hstore].
Defined.

(** Both files analysed: 3 + 1 pages. *)
Example both_files_resolve :
  let final :=
    run [FilePond_processfile s1; FilePond_processfile s2;
         analysis_done 0 [s1; s2]; analysis_done 0 [s1; s2]] fresh in
  cache final = {[ "s1" := Num 3; "s2" := Num 1 ]} ∧
  quantity final = "4" ∧ changes final = ["3"; "4"] ∧ suspended final = [].
Proof. by vm_compute. Qed.

(** [s1] removed before its analysis resolves: only [s2] counts. *)
Example removed_before_resolving :
  let final :=
    run [FilePond_processfile s1; FilePond_processfile s2;
         analysis_done 1 [s1; s2]; FilePond_removefile [s2];
         analysis_done 0 [s2]] fresh in
  cache final = {[ "s2" := Num 1 ]} ∧
  quantity final = "1" ∧ suspended final = [].
Proof. by vm_compute. Qed.

(** No file at all: the aggregate is 0 and the field shows 1. *)
Example no_files :
  (getPageCount [] fresh).1 = 0 ∧
  quantity (handle (FilePond_init []) fresh) = "1".
Proof. by vm_compute. Qed.

(** After a reload the widget reports the files without their content; the
    counts come from the store. *)
Example counts_survive_reload :
  let before :=
    run [FilePond_processfile s1; FilePond_processfile s2;
         analysis_done 0 [s1; s2]; analysis_done 0 [s1; s2]] fresh in
  let restored := [mkItem "s1" (inr "s1"); mkItem "s2" (inr "s2")] in
  ∃ reloaded,
    start (localStorage before) "1" = Some reloaded ∧
    quantity (run [FilePond_init restored; FilePond_processfile (mkItem "s1" (inr "s1"))]
                  reloaded) = "4".
Proof. eexists. split; by vm_compute. Qed.

End Scenarios.

(** ** Further properties of the counter script *)

Section Counter.
Import Json Cache Controller ControllerSpec Reachable Scenario.

Lemma persisted_durable st : persisted st → durable st.
Proof.
  intros H. unfold durable. rewrite (load_encoded _ _ H). apply as_cache_encoded.
Qed.

Lemma handle_durable e st : durable st → durable (handle e st).
Proof.
  intros H. destruct e as [files|detail|files|i files|i]; simpl.
  - apply persisted_durable, persisted_updatePageCount.
  - unfold addFile. destruct (file detail); [|done].
    apply persisted_durable. exact (persisted_save _).
  - apply persisted_durable, persisted_updatePageCount.
  - destruct (suspended st !! i); [|done]. unfold addFile_resume.
    destruct (hasKey _ _); [|done].
    apply persisted_durable, persisted_updatePageCount.
  - destruct (suspended st !! i); [|done]. by destruct (String.eqb _ _).
Qed.

(** X1: whatever the store held when the page was loaded, and whatever
    events and resumed analyses were handled since, the store holds the
    cache that is in memory: a reload at any moment restores exactly that
    mapping. *)
Theorem reload_restores_cache
    (ls : gmap string text) (field : string) (st0 : state) (es : list event)
    (field' : string) :
  start ls field = Some st0 →
  let st := run es st0 in
  start (localStorage st) field'
  = Some (mkState (cache st) (localStorage st) field' [] []).
Proof.
  intros Hstart.
  assert (durable st0) as H0.
  { unfold start in Hstart. unfold durable.
    destruct (as_cache (load ls)) as [c|] eqn:E; [|done].
    simpl in Hstart. injection Hstart as <-. exact E. }
  assert (durable (run es st0)) as H.
  { clear Hstart. revert st0 H0. induction es as [|e es IH]; intros st0 H0; [done|].
    apply IH. by apply handle_durable. }
  simpl. unfold start. unfold durable in H. by rewrite H.
Qed.

Lemma reload_restores_cache_witness :
  let st :=
    run [FilePond_processfile s1; FilePond_init [s1]; analysis_done 0 [s1]]
        (mkState ∅ {[ localStorageKey := Malformed "{oops" ]} "1" [] []) in
  start (localStorage st) "1"
  = Some (mkState (cache st) (localStorage st) "1" [] []).
Proof.
  apply (reload_restores_cache
           {[ localStorageKey := Malformed "{oops" ]} "1"
           (mkState ∅ {[ localStorageKey := Malformed "{oops" ]} "1" [] [])).
  reflexivity.
Defined.

Lemma suspended_updatePageCount files st :
  suspended (updatePageCount files st) = suspended st.
Proof. by rewrite updatePageCount_eq. Qed.

Lemma changes_updatePageCount files st :
  changes (updatePageCount files st)
  = changes st
    ++ [pretty (or_default 1 (Some (Num (aggregate (cache st) (serverId <$> files)))))].
Proof. by rewrite updatePageCount_eq. Qed.

Lemma at_least_one_updatePageCount files st :
  counts_positive st → Forall at_least_one (changes st) →
  Forall at_least_one (changes (updatePageCount files st)).
Proof.
  intros Hc Hs. rewrite changes_updatePageCount. apply Forall_app. split; [done|].
  apply Forall_singleton.
  assert (0 ≤ aggregate (cache st) (serverId <$> files)) as Hagg.
  { apply aggregate_nonneg. intros k n Hk. apply Hc in Hk. lia. }
  rewrite or_default_1 by done. eexists. split; [|done]. lia.
Qed.

(** X2: starting from a cache whose counts are all at least 1 (an empty
    one, for instance), every count the script stores is at least 1 and
    every change notification it fires carries a quantity of at least 1:
    the field never shows 0 or less. *)
Theorem quantity_never_below_one (st0 : state) (es : list event) :
  counts_positive st0 →
  Forall at_least_one (changes st0) →
  counts_positive (run es st0) ∧ Forall at_least_one (changes (run es st0)).
Proof.
  revert st0. induction es as [|e es IH]; intros st0 Hc Hs; [done|].
  apply IH; [by apply handle_counts_positive|].
  destruct e as [files|detail|files|i files|i]; simpl.
  - by apply at_least_one_updatePageCount.
  - unfold addFile. by destruct (file detail).
  - by apply at_least_one_updatePageCount.
  - destruct (suspended st0 !! i) as [t|] eqn:Ht; [|done]. unfold addFile_resume.
    destruct (hasKey _ _); [|done].
    apply at_least_one_updatePageCount; [|done].
    apply (counts_positive_setKey _ _ (set_suspended _ st0) Hc).
    intros n [= <-]. apply analyzeFile_positive.
  - destruct (suspended st0 !! i); [|done]. by destruct (String.eqb _ _).
Qed.

Lemma quantity_never_below_one_witness :
  counts_positive
    (run [FilePond_init []; FilePond_processfile s1; FilePond_removefile [];
          analysis_done 0 []] fresh) ∧
  Forall at_least_one
    (changes (run [FilePond_init []; FilePond_processfile s1;
                   FilePond_removefile []; analysis_done 0 []] fresh)).
Proof.
  apply (quantity_never_below_one fresh).
  - intros k n Hk. by vm_compute in Hk.
  - constructor.
Defined.

(** X4: when an analysis resumes and its key is still in the cache, the
    count is stored and the aggregate republished in the same step; the
    prune of that step keeps the new count only if the widget still lists
    the file, and treats every other key as any recompute does. *)
Theorem analysis_done_resolves
    (i : nat) (t : task) (files : list Item) (st : state) :
  suspended st !! i = Some t →
  is_Some (cache st !! task_key t) →
  let st' := handle (analysis_done i files) st in
  let ids := serverId <$> files in
  cache st' !! task_key t
  = (if decide (task_key t ∈ ids)
     then Some (Num (Pdf.analyzeFile (task_file t))) else None) ∧
  (∀ k, k ≠ task_key t →
        cache st' !! k = if decide (k ∈ ids) then cache st !! k else None) ∧
  suspended st' = delete i (suspended st) ∧
  persisted st' ∧
  changes st' = changes st ++ [quantity st'].
Proof.
  intros Hi Hk st' ids. unfold st'. simpl. rewrite Hi. unfold addFile_resume.
  assert (hasKey (task_key t) (set_suspended (delete i (suspended st)) st) = true)
    as -> by by apply hasKey_true.
  split_and!.
  - rewrite lookup_updatePageCount, cache_setKey. simpl.
    by rewrite lookup_insert_eq.
  - intros k Hne. rewrite lookup_updatePageCount, cache_setKey. simpl.
    by rewrite lookup_insert_ne.
  - by rewrite suspended_updatePageCount.
  - apply persisted_updatePageCount.
  - by rewrite updatePageCount_eq.
Qed.

Lemma analysis_done_resolves_witness :
  let st := run [FilePond_processfile s1; FilePond_processfile s2] fresh in
  let st' := handle (analysis_done 0 [s2]) st in
  let ids := serverId <$> [s2] in
  cache st' !! "s1"
  = (if decide ("s1" ∈ ids) then Some (Num (Pdf.analyzeFile H1)) else None) ∧
  (∀ k, k ≠ "s1" →
        cache st' !! k = if decide (k ∈ ids) then cache st !! k else None) ∧
  suspended st' = delete 0%nat (suspended st) ∧
  persisted st' ∧
  changes st' = changes st ++ [quantity st'].
Proof.
  apply (analysis_done_resolves 0 (mkTask "s1" H1) [s2]
           (run [FilePond_processfile s1; FilePond_processfile s2] fresh)).
  - reflexivity.
  - exists Null. reflexivity.
Defined.

Lemma not_started F es :
  F ∉ started es → Forall (λ e, starts_analysis F e = false) es.
Proof.
  induction es as [|e es IH]; intros HF; [constructor|].
  destruct e as [files|detail|files|i files|i]; simpl in HF;
    try (constructor; [done|by apply IH]).
  destruct (file detail) eqn:Hfile.
  - apply not_elem_of_cons in HF as [Hne HF].
    constructor; [|by apply IH]. simpl. rewrite Hfile.
    by apply String.eqb_neq.
  - constructor; [|by apply IH]. simpl. by rewrite Hfile.
Qed.

(** X5: the cache never grows by itself: a key found in it after any run
    of events was there before the run, or a processed-file event of the
    run carried the content of that file. *)
Theorem cached_keys_were_processed (es : list event) (st : state) (k : string) :
  is_Some (cache (run es st) !! k) →
  is_Some (cache st !! k) ∨ k ∈ started es.
Proof.
  intros Hk. destruct (cache st !! k) as [v|] eqn:E; [by left; eauto|right].
  destruct (decide (k ∈ started es)) as [|Hout]; [done|exfalso].
  apply not_started in Hout.
  rewrite (run_keeps_absent k es st Hout E) in Hk. by destruct Hk.
Qed.

Lemma cached_keys_were_processed_witness :
  is_Some (cache fresh !! "s2") ∨
  "s2" ∈ started [FilePond_processfile s1; FilePond_processfile s2;
                  FilePond_removefile [s2]; analysis_done 1 [s2]].
Proof.
  apply (cached_keys_were_processed
           [FilePond_processfile s1; FilePond_processfile s2;
            FilePond_removefile [s2]; analysis_done 1 [s2]] fresh "s2").
  exists (Num 1). reflexivity.
Defined.

Lemma handle_uncounted F e st :
  starts_analysis F e = false →
  not_in_flight F st → uncounted F st →
  not_in_flight F (handle e st) ∧ uncounted F (handle e st).
Proof.
  intros He Hfl Hun.
  assert (∀ files st1, suspended st1 = suspended st ∨ True →
            uncounted F st1 → uncounted F (updatePageCount files st1)) as Hupd.
  { intros files st1 _ H1. unfold uncounted.
    rewrite lookup_updatePageCount. case_decide; [exact H1|by left]. }
  destruct e as [files|detail|files|i files|i]; simpl in *.
  - split; [|by apply Hupd; auto].
    intros t. rewrite suspended_updatePageCount. apply Hfl.
  - unfold addFile. destruct (file detail) eqn:Hfile; [|done].
    apply String.eqb_neq in He. split.
    + intros t. simpl. rewrite elem_of_app, list_elem_of_singleton.
      intros [Ht| ->]; [by apply Hfl|done].
    + unfold uncounted. simpl. by rewrite lookup_insert_ne.
  - split; [|by apply Hupd; auto].
    intros t. rewrite suspended_updatePageCount. apply Hfl.
  - destruct (suspended st !! i) as [t|] eqn:Ht; [|done].
    assert (task_key t ≠ F) as Hne
      by (apply Hfl; by eapply list_elem_of_lookup_2).
    assert (not_in_flight F (set_suspended (delete i (suspended st)) st)) as Hfl'.
    { intros t' Hin. apply Hfl. simpl in Hin.
      by apply list_elem_of_delete_inv in Hin. }
    unfold addFile_resume. destruct (hasKey _ _); [|done]. split.
    + intros t'. rewrite suspended_updatePageCount. apply Hfl'.
    + apply Hupd; [auto|]. unfold uncounted. rewrite cache_setKey. simpl.
      by rewrite lookup_insert_ne.
  - destruct (suspended st !! i) as [t|] eqn:Ht; [|done].
    destruct (String.eqb _ _); [|done]. split; [|done].
    intros t' Hin. apply Hfl. simpl in Hin.
    by apply list_elem_of_delete_inv in Hin.
Qed.

(** X6: only a suspended analysis of [F] can turn [F]'s entry into a count.
    When none is in flight (never started, or its read failed) and the entry
    is absent or pending, it stays absent or pending through every event
    and completion that does not start a new analysis of [F]. *)
Theorem uncounted_without_analysis (F : string) (es : list event) (st : state) :
  not_in_flight F st →
  uncounted F st →
  Forall (λ e, starts_analysis F e = false) es →
  uncounted F (run es st).
Proof.
  intros Hfl Hun Hes. revert st Hfl Hun.
  induction Hes as [|e es He _ IH]; intros st Hfl Hun; [done|].
  destruct (handle_uncounted F e st He Hfl Hun) as [Hfl' Hun'].
  by apply IH.
Qed.

Lemma uncounted_without_analysis_witness :
  uncounted "s1"
    (run [FilePond_init [s1]; FilePond_processfile s2; analysis_done 0 [s1; s2]]
         (run [FilePond_processfile s1; read_failed 0] fresh)).
Proof.
  apply (uncounted_without_analysis "s1").
  - intros t Ht. vm_compute in Ht. by apply elem_of_nil in Ht.
  - right. by vm_compute.
  - by repeat constructor.
Defined.

End Counter.

(** ** Further properties of the estimator *)

Section EstimatorBounds.
Import Pdf PdfSpec.

Lemma units_app a b : units (a +:+ b) = units a ++ units b.
Proof. induction a as [|c a IH]; [done|]. simpl. by rewrite <- IH. Qed.

Lemma length_units a : length (units a) = String.length a.
Proof. induction a as [|c a IH]; [done|]. simpl. by rewrite <- IH. Qed.

Lemma OccursAt_end s i m : OccursAt s i m → (i + length m ≤ length s)%nat.
Proof.
  intros Hi. pose proof (OccursAt_length _ _ _ Hi) as Hm.
  destruct Hi as (_ & r & Hr).
  apply (f_equal length) in Hr. rewrite length_drop, length_app in Hr. lia.
Qed.

Lemma OccursAt_app_l a b i m : OccursAt a i m → OccursAt (a ++ b) i m.
Proof.
  intros Hi. pose proof (OccursAt_end _ _ _ Hi) as Hend.
  destruct Hi as (Hm & r & Hr). split; [done|]. exists (r ++ b).
  rewrite drop_app_le by lia. by rewrite Hr, <- app_assoc.
Qed.

Lemma Disjoint_app a b k js js2 :
  (k ≤ length a)%nat →
  Disjoint a k js → Disjoint (a ++ b) (length a) js2 →
  Disjoint (a ++ b) k (js ++ js2).
Proof.
  revert k. induction js as [|j js IH]; intros k Hk Hjs Hjs2.
  - simpl. by apply (Disjoint_from_le _ (length a)).
  - destruct Hjs as [Hj (m & Hm & Hrest)]. split; [done|].
    exists m. split; [by apply OccursAt_app_l|].
    apply IH; [by apply OccursAt_end in Hm|done..].
Qed.

Lemma matches_superadditive a b :
  (length (match_from 0 a) + length (match_from 0 b)
   ≤ length (match_from 0 (a ++ b)))%nat.
Proof.
  destruct (Matches_Disjoint a _ (Matches_match_from a)) as (ja & Hla & Hja).
  destruct (Matches_Disjoint b _ (Matches_match_from b)) as (jb & Hlb & Hjb).
  destruct (Disjoint_behind a b jb Hjb) as (jb' & Hlb' & Hjb').
  pose proof (Disjoint_app a b 0 ja jb' (Nat.le_0_l _) Hja Hjb') as H.
  apply match_from_most in H. rewrite length_app in H. lia.
Qed.

Lemma matches_fit s ms : Matches s ms → (11 * length ms ≤ length s)%nat.
Proof.
  induction 1 as [s _|gap m rest ms Hm _ _ IH]; [simpl; lia|].
  destruct Hm as (ws & c & _ & _ & ->).
  rewrite !length_app. simpl. lia.
Qed.

(** X7: putting two contents one behind the other never loses a page
    marker: the scan of the joined content finds at least as many markers as
    the scans of the two parts together, and the estimate of the joined
    content is at least the estimate of either part. *)
Theorem estimate_of_joined_contents (a b : string) :
  (length (match_from 0 (units a)) + length (match_from 0 (units b))
   ≤ length (match_from 0 (units (a +:+ b))))%nat ∧
  estimate a ≤ estimate (a +:+ b) ∧
  estimate b ≤ estimate (a +:+ b).
Proof.
  pose proof (matches_superadditive (units a) (units b)) as H.
  rewrite <- units_app in H. split; [done|].
  unfold estimate. rewrite !countPdfPages_matches.
  unfold readAsBinaryString. simpl file_bytes.
  destruct (match_from 0 (units a)), (match_from 0 (units b)),
    (match_from 0 (units (a +:+ b))); simpl length in *; lia.
Qed.

(** X8: every file counts for at least one page, a file whose type is not
    exactly [application/pdf] for exactly one whatever its content, and no
    file for more than one page per 11 bytes of content (the shortest text
    the pattern matches). *)
Theorem analyzeFile_bounds (file : File) :
  1 ≤ analyzeFile file ∧
  11 * analyzeFile file ≤ Z.max 11 (Z.of_nat (String.length (file_bytes file))) ∧
  (file_type file ≠ "application/pdf" → analyzeFile file = 1).
Proof.
  split; [apply analyzeFile_positive|]. unfold analyzeFile. split.
  - destruct (String.eqb _ _); [|lia]. rewrite countPdfPages_matches.
    pose proof (matches_fit _ _ (Matches_match_from (readAsBinaryString file))) as H.
    unfold readAsBinaryString in *. rewrite length_units in H.
    destruct (match_from 0 (units (file_bytes file))); [lia|]. lia.
  - intros Hne. by apply String.eqb_neq in Hne as ->.
Qed.

Example content_of_other_type_is_not_read :
  analyzeFile (mkFile "a.PDF" "application/PDF" "/Type /Page /Type /Page ") = 1 ∧
  analyzeFile (mkFile "a.pdf" "application/pdf" "/Type /Page /Type /Page ") = 2.
Proof. by vm_compute. Qed.

End EstimatorBounds.

(** ** Decimal digits *)

Section Digits.
Import Price PriceSpec.

Lemma codes_cons c s : codes (String c s) = N_of_ascii c :: codes s.
Proof. done. Qed.

Lemma codes_app a b : codes (a +:+ b) = codes a ++ codes b.
Proof.
  induction a as [|c a IH]; [done|].
  change (String c a +:+ b) with (String c (a +:+ b)).
  rewrite !codes_cons, IH. done.
Qed.

Lemma digit_code d :
  (d < 10)%N → N_of_ascii (pretty_N_char d) = (48 + d)%N.
Proof.
  intros Hd.
  assert (d = 0 ∨ d = 1 ∨ d = 2 ∨ d = 3 ∨ d = 4 ∨ d = 5 ∨ d = 6 ∨ d = 7
          ∨ d = 8 ∨ d = 9)%N as H by lia.
  destruct H as [->|[->|[->|[->|[->|[->|[->|[->|[->| ->]]]]]]]]]; reflexivity.
Qed.

Lemma digit_in_code d :
  (d < 10)%N → digit_in 10 (N_of_ascii (pretty_N_char d)) = Some d.
Proof.
  intros Hd. rewrite digit_code by done. unfold digit_in, is_digit.
  replace ((48 <=? 48 + d)%N && (48 + d <=? 57)%N) with true
    by (symmetry; apply andb_true_iff; split; apply N.leb_le; lia).
  replace (48 + d - 48)%N with d by lia.
  by replace (d <? 10)%N with true by (symmetry; apply N.ltb_lt; lia).
Qed.

Lemma is_digit_code d : (d < 10)%N → is_digit (N_of_ascii (pretty_N_char d)) = true.
Proof.
  intros Hd. rewrite digit_code by done. unfold is_digit.
  apply andb_true_iff; split; apply N.leb_le; lia.
Qed.

(** The digits of a positive number start with a digit other than 0. *)
Lemma pretty_N_go_head x s :
  (0 < x)%N →
  ∃ d rest, (1 ≤ d < 10)%N ∧ pretty_N_go x s = String (pretty_N_char d) rest.
Proof.
  revert s. induction (N.lt_wf_0 x) as [x _ IH]. intros s Hx.
  rewrite pretty_N_go_step by done.
  destruct (decide (x < 10)%N) as [Hlt|Hge].
  - rewrite N.div_small, N.mod_small by done. rewrite pretty_N_go_0.
    exists x, s. split; [lia|done].
  - apply IH; [apply N.div_lt; lia|]. apply N.div_str_pos. lia.
Qed.

Lemma digits_value_pretty x s rest :
  (0 < x)%N →
  digits_value 10 None (codes (pretty_N_go x s) ++ rest)
  = digits_value 10 (Some x) (codes s ++ rest).
Proof.
  revert s. induction (N.lt_wf_0 x) as [x _ IH]. intros s Hx.
  rewrite pretty_N_go_step by done.
  assert (x `mod` 10 < 10)%N as Hmod by (apply N.mod_lt; lia).
  destruct (decide (x < 10)%N) as [Hlt|Hge].
  - rewrite N.div_small, N.mod_small by done. rewrite pretty_N_go_0, codes_cons.
    simpl. rewrite digit_in_code by done. simpl. by rewrite N.add_0_l.
  - rewrite IH; [|apply N.div_lt; lia|apply N.div_str_pos; lia].
    rewrite codes_cons. simpl. rewrite digit_in_code by done. simpl.
    do 2 f_equal. rewrite (N.div_mod x 10) at 3 by lia. lia.
Qed.

Lemma digits_pretty_N_go x s :
  Forall (λ c, is_digit c = true) (codes s) →
  Forall (λ c, is_digit c = true) (codes (pretty_N_go x s)).
Proof.
  revert s. induction (N.lt_wf_0 x) as [x _ IH]. intros s Hs.
  destruct (decide (0 < x)%N) as [Hx|H0].
  - rewrite pretty_N_go_step by done. apply IH; [apply N.div_lt; lia|].
    rewrite codes_cons. constructor; [|done].
    apply is_digit_code, N.mod_lt. lia.
  - replace x with 0%N by lia. by rewrite pretty_N_go_0.
Qed.

Lemma pretty_N_digits (x : N) : Forall (λ c, is_digit c = true) (codes (pretty x)).
Proof.
  unfold pretty, pretty_N. case_decide.
  - by repeat constructor.
  - apply digits_pretty_N_go. constructor.
Qed.

Lemma pretty_Z_digits (z : Z) :
  0 ≤ z → Forall (λ c, is_digit c = true) (codes (pretty z)).
Proof.
  intros Hz. destruct z as [|p|p]; [by repeat constructor| |lia].
  apply (pretty_N_digits (Npos p)).
Qed.

Lemma pretty_Z_nonempty (z : Z) : codes (pretty z) ≠ [].
Proof.
  assert (∀ p : positive, codes (pretty p) ≠ []) as Hpos.
  { intros p. unfold pretty, pretty_positive, pretty, pretty_N.
    rewrite decide_False by done.
    destruct (pretty_N_go_head (Npos p) "") as (d & rest & _ & ->); done. }
  destruct z as [|p|p]; [done|apply Hpos|done].
Qed.

Lemma trim_start_white ws t :
  Forall (λ c, is_white c = true) ws → trim_start (ws ++ t) = trim_start t.
Proof. induction 1 as [|c ws Hc _ IH]; [done|]. simpl. by rewrite Hc. Qed.

Lemma digit_in_other c : is_digit c = false → digit_in 10 c = None.
Proof.
  intros Hc. unfold digit_in. rewrite Hc.
  destruct ((97 <=? c)%N && (c <=? 122)%N) eqn:Hlow.
  - apply andb_true_iff in Hlow as [H1%N.leb_le _].
    by replace (c - 87 <? 10)%N with false by (symmetry; apply N.ltb_ge; lia).
  - destruct ((65 <=? c)%N && (c <=? 90)%N) eqn:Hup; [|done].
    apply andb_true_iff in Hup as [H1%N.leb_le _].
    by replace (c - 55 <? 10)%N with false by (symmetry; apply N.ltb_ge; lia).
Qed.

Lemma digits_value_stops acc rest :
  stops rest → digits_value 10 (Some acc) rest = Some acc.
Proof.
  destruct rest as [|c rest]; [done|]. intros (Hc & _). simpl.
  by rewrite digit_in_other.
Qed.

Lemma parseInt_unsigned d t :
  (1 ≤ d < 10)%N →
  parseInt (N_of_ascii (pretty_N_char d) :: t)
  = Z.of_N <$> digits_value 10 None (N_of_ascii (pretty_N_char d) :: t).
Proof.
  intros Hd.
  assert (d = 1 ∨ d = 2 ∨ d = 3 ∨ d = 4 ∨ d = 5 ∨ d = 6 ∨ d = 7 ∨ d = 8
          ∨ d = 9)%N as H by lia.
  destruct H as [->|[->|[->|[->|[->|[->|[->|[->| ->]]]]]]]];
    unfold parseInt; simpl;
    match goal with |- context [digits_value ?R ?a ?s] =>
      destruct (digits_value R a s) as [m|]; [simpl; f_equal; lia|done] end.
Qed.

Lemma parseInt_negative d t :
  (1 ≤ d < 10)%N →
  parseInt (45%N :: N_of_ascii (pretty_N_char d) :: t)
  = (λ m, - Z.of_N m) <$> digits_value 10 None (N_of_ascii (pretty_N_char d) :: t).
Proof.
  intros Hd.
  assert (d = 1 ∨ d = 2 ∨ d = 3 ∨ d = 4 ∨ d = 5 ∨ d = 6 ∨ d = 7 ∨ d = 8
          ∨ d = 9)%N as H by lia.
  destruct H as [->|[->|[->|[->|[->|[->|[->|[->| ->]]]]]]]];
    unfold parseInt; simpl;
    match goal with |- context [digits_value ?R ?a ?s] =>
      destruct (digits_value R a s) as [m|]; [simpl; f_equal; lia|done] end.
Qed.

(** X9: [parseInt] reads back the decimal text of any integer, also
    behind white space and in front of further text that does not go on
    with a digit (or with the [x] of a hexadecimal prefix).  In particular
    the price script reads the quantity exactly as the counter script
    wrote it. *)
Theorem parseInt_reads_decimal (ws rest : list N) (v : Z) :
  Forall (λ c, is_white c = true) ws →
  stops rest →
  parseInt (ws ++ codes (pretty v) ++ rest) = Some v.
Proof.
  intros Hws Hrest.
  assert (∀ t, parseInt (ws ++ t) = parseInt t) as Htrim.
  { intros t. unfold parseInt. by rewrite trim_start_white. }
  rewrite Htrim.
  assert (∀ p : positive,
            ∃ d t, (1 ≤ d < 10)%N ∧
                   codes (pretty (Npos p)) ++ rest
                   = N_of_ascii (pretty_N_char d) :: t ∧
                   digits_value 10 None (N_of_ascii (pretty_N_char d) :: t)
                   = Some (Npos p)) as Hpos.
  { intros p. unfold pretty, pretty_N. rewrite decide_False by done.
    destruct (pretty_N_go_head (Npos p) "") as (d & r & Hd & Hp); [lia|].
    exists d, (codes r ++ rest). split; [done|]. split.
    - by rewrite Hp, codes_cons.
    - change (N_of_ascii (pretty_N_char d) :: codes r ++ rest)
        with (codes (String (pretty_N_char d) r) ++ rest).
      rewrite <- Hp.
      rewrite digits_value_pretty by lia. simpl. by apply digits_value_stops. }
  destruct v as [|p|p].
  - change (codes (pretty 0)) with [48%N]. unfold parseInt.
    destruct rest as [|c rest]; [done|]. destruct Hrest as (Hc & Hx & HX).
    simpl. apply N.eqb_neq in Hx, HX. rewrite Hx, HX. simpl.
    by rewrite digit_in_other.
  - destruct (Hpos p) as (d & t & Hd & Ht & Hv).
    change (pretty (Z.pos p)) with (pretty (Npos p)).
    rewrite Ht, parseInt_unsigned, Hv by done. done.
  - destruct (Hpos p) as (d & t & Hd & Ht & Hv).
    change (pretty (Z.neg p)) with ("-" +:+ pretty (Npos p)).
    rewrite codes_app. change (codes "-") with [45%N].
    rewrite <- app_assoc. simpl. rewrite Ht, parseInt_negative, Hv by done. done.
Qed.

Lemma parseInt_reads_decimal_witness :
  parseInt (codes "  " ++ codes (pretty (-1204)) ++ codes " pages") = Some (-1204).
Proof.
  apply (parseInt_reads_decimal (codes "  ") (codes " pages") (-1204)).
  - by repeat constructor.
  - by vm_compute.
Defined.

Example parseInt_edges :
  parseInt (codes "") = None ∧ parseInt (codes "pages: 3") = None ∧
  parseInt (codes "12.5") = Some 12 ∧ parseInt (codes "0x1F") = Some 31 ∧
  parseInt (codes "0x") = None ∧ parseInt (codes "-") = None ∧
  parseInt (codes "+007") = Some 7.
Proof. by vm_compute. Qed.

End Digits.

(** ** Thousands separators *)

Section Grouping.
Import Price PriceSpec.

Lemma digit_run_digits ds : Forall (λ c, is_digit c = true) ds → digit_run ds = length ds.
Proof. induction 1 as [|c ds Hc _ IH]; [done|]. simpl. by rewrite Hc, IH. Qed.

Lemma separate_digit thousands c ds :
  is_digit c = true → Forall (λ c, is_digit c = true) ds →
  separate thousands (c :: ds)
  = if Nat.ltb 0 (length ds) && Nat.eqb (length ds mod 3) 0
    then c :: thousands ++ separate thousands ds
    else c :: separate thousands ds.
Proof. intros Hc Hds. simpl. by rewrite Hc, digit_run_digits. Qed.

Lemma separate_short thousands ds :
  Forall (λ c, is_digit c = true) ds → (length ds ≤ 3)%nat → separate thousands ds = ds.
Proof.
  intros Hds Hlen.
  destruct ds as [|a [|b [|c [|d ds]]]]; [done|..|simpl in Hlen; lia];
    repeat match goal with
           | H : Forall _ (_ :: _) |- _ => inversion H; clear H; subst
           end;
    simpl;
    repeat match goal with
           | H : is_digit _ = true |- _ => rewrite H; clear H; simpl
           end;
    done.
Qed.

(** Three more digits at the right end: the grouping of what was there,
    the separator, the three digits. *)
Lemma separate_snoc3 thousands ds a b c :
  Forall (λ c, is_digit c = true) ds → ds ≠ [] → Forall (λ c, is_digit c = true) [a; b; c] →
  separate thousands (ds ++ [a; b; c])
  = separate thousands ds ++ thousands ++ [a; b; c].
Proof.
  intros Hds Hne Habc. induction Hds as [|d ds Hd Hds IH]; [done|].
  rewrite <- app_comm_cons.
  rewrite !separate_digit by (done || by apply Forall_app).
  rewrite length_app. simpl length.
  destruct ds as [|e ds].
  - rewrite app_nil_l, (separate_short _ [a; b; c]) by (done || (simpl; lia)).
    done.
  - replace ((length (e :: ds) + 3) `mod` 3)%nat with (length (e :: ds) `mod` 3)%nat
      by (rewrite <- (Nat.Div0.add_mod_idemp_r _ 3); by rewrite Nat.add_0_r).
    replace (Nat.ltb 0 (length (e :: ds) + 3)) with (Nat.ltb 0 (length (e :: ds)))
      by (simpl length; by destruct (length ds + 3)%nat eqn:E; [lia|]).
    rewrite IH by done.
    destruct (_ && _); by rewrite <- ?app_comm_cons, <- ?app_assoc.
Qed.

Lemma separate_from_right thousands rds :
  Forall (λ c, is_digit c = true) rds →
  separate thousands (rev rds) = rev (from_right (rev thousands) rds).
Proof.
  remember (length rds) as n eqn:Hn. revert rds Hn.
  induction n as [n IH] using lt_wf_ind. intros rds -> Hds.
  destruct rds as [|a [|b [|c [|d more]]]];
    try (apply separate_short; [by apply Forall_rev|rewrite length_rev; simpl; lia]).
  change (from_right (rev thousands) (a :: b :: c :: d :: more))
    with (a :: b :: c :: rev thousands ++ from_right (rev thousands) (d :: more)).
  do 3 apply Forall_cons in Hds as [? Hds].
  change (a :: b :: c :: d :: more) with ([a; b; c] ++ d :: more).
  rewrite rev_app_distr. change (rev [a; b; c]) with [c; b; a].
  rewrite separate_snoc3; [|by apply Forall_rev| |by repeat constructor].
  2:{ simpl. by destruct (rev more). }
  rewrite (IH (length (d :: more))); [|simpl; lia|done|done].
  change (a :: b :: c :: rev thousands ++ from_right (rev thousands) (d :: more))
    with ([a; b; c] ++ rev thousands ++ from_right (rev thousands) (d :: more)).
  rewrite !rev_app_distr, rev_involutive. by rewrite <- app_assoc.
Qed.

Lemma separate_grouped thousands ds :
  Forall (λ c, is_digit c = true) ds → separate thousands ds = grouped thousands ds.
Proof.
  intros Hds. unfold grouped. rewrite <- separate_from_right by by apply Forall_rev.
  by rewrite rev_involutive.
Qed.

Lemma split_none sep a :
  Forall (λ c, c ≠ sep) a → split sep a = [a].
Proof.
  induction 1 as [|c a Hc _ IH]; [done|]. simpl.
  apply N.eqb_neq in Hc. by rewrite Hc, IH.
Qed.

Lemma split_first sep a b :
  Forall (λ c, c ≠ sep) a → split sep (a ++ sep :: b) = a :: split sep b.
Proof.
  induction 1 as [|c a Hc _ IH]; simpl.
  - by rewrite N.eqb_refl.
  - apply N.eqb_neq in Hc. by rewrite Hc, IH.
Qed.

Lemma digits_no_dot ds : Forall (λ c, is_digit c = true) ds → Forall (λ c, c ≠ 46%N) ds.
Proof. intros H. eapply Forall_impl; [exact H|]. by intros c Hc ->. Qed.

(** X10: an amount of cents is written as its whole part with a thousands
    separator between every three digits counted from the right, the
    decimal separator and exactly two digits of cents; a negative amount
    has the sign in front. *)
Theorem formatWithDelimiters_amount (n : Z) (thousands decimal : list N) :
  Z.abs n < 10 ^ 15 →
  formatWithDelimiters (Some n) (Some two_decimals) (Some thousands) (Some decimal)
  = amount thousands decimal n.
Proof.
  intros _.
  change (formatWithDelimiters (Some n) (Some two_decimals) (Some thousands)
            (Some decimal))
    with (separate thousands
            (default [] (split 46 (toFixed_hundredth n two_decimals) !! 0%nat))
          ++ match split 46 (toFixed_hundredth n two_decimals) !! 1%nat with
             | Some (c :: part) => decimal ++ c :: part
             | _ => []
             end).
  unfold amount.
  set (sign := if n <? 0 then codes "-" else []).
  set (whole := codes (pretty (Z.abs n / 100))).
  assert (0 ≤ Z.abs n `mod` 100 < 100) as Hr by (apply Z.mod_pos_bound; lia).
  set (r := Z.abs n `mod` 100) in *.
  set (dd := codes (pretty (r / 10)) ++ codes (pretty (r `mod` 10))).
  assert (toFixed_hundredth n two_decimals = (sign ++ whole) ++ 46%N :: dd) as ->.
  { unfold toFixed_hundredth, two_digits. by rewrite <- app_assoc. }
  assert (Forall (λ c, is_digit c = true) whole) as Hwhole
    by (apply pretty_Z_digits; apply Z.div_pos; lia).
  assert (Forall (λ c, is_digit c = true) dd) as Hdd.
  { apply Forall_app. split; apply pretty_Z_digits;
      [apply Z.div_pos; lia|apply Z.mod_pos_bound; lia]. }
  assert (Forall (λ c, c ≠ 46%N) (sign ++ whole)) as Hfront.
  { apply Forall_app. split; [|by apply digits_no_dot].
    unfold sign. destruct (n <? 0); by repeat constructor. }
  rewrite split_first by done.
  rewrite split_none by by apply digits_no_dot.
  simpl lookup. simpl default.
  assert (separate thousands (sign ++ whole) = sign ++ grouped thousands whole) as ->.
  { unfold sign. destruct (n <? 0); simpl; by rewrite separate_grouped. }
  assert (dd ≠ []) as Hne.
  { unfold dd. intros [E _]%app_eq_nil. by apply pretty_Z_nonempty in E. }
  destruct dd as [|c part]; [done|]. by rewrite <- !app_assoc.
Qed.

Lemma formatWithDelimiters_amount_witness :
  formatWithDelimiters (Some 123456789) (Some two_decimals)
    (Some (codes ".")) (Some (codes ","))
  = amount (codes ".") (codes ",") 123456789.
Proof.
  apply (formatWithDelimiters_amount 123456789 (codes ".") (codes ",")). lia.
Defined.

Example amounts :
  amount (codes ".") (codes ",") 123456789 = codes "1.234.567,89" ∧
  amount (codes ".") (codes ",") 100000 = codes "1.000,00" ∧
  amount (codes ".") (codes ",") 99999 = codes "999,99" ∧
  amount (codes ".") (codes ",") 5 = codes "0,05" ∧
  amount (codes ".") (codes ",") (-123456) = codes "-1.234,56".
Proof. by vm_compute. Qed.

End Grouping.

(** ** The price text *)

Section PriceText.
Import Cache Controller ControllerSpec Price PriceSpec.

Lemma find_placeholder_moneyFormat :
  find_placeholder moneyFormat
  = Some ([], codes "amount_with_comma_separator", currency).
Proof. reflexivity. Qed.

Lemma formatMoney_default cents :
  formatMoney cents None
  = Some (formatWithDelimiters cents (Some two_decimals)
            (Some (codes ".")) (Some (codes ",")) ++ currency).
Proof.
  unfold formatMoney. rewrite find_placeholder_moneyFormat.
  rewrite (decide_False (P := codes "amount_with_comma_separator" = codes "amount"))
    by discriminate.
  rewrite (decide_False
             (P := codes "amount_with_comma_separator" = codes "amount_no_decimals"))
    by discriminate.
  by rewrite decide_True by done.
Qed.

(** X11: with both elements on the page and both texts starting with a
    number, the price text becomes the amount for price times quantity,
    where a quantity of 0 or less counts as 1; the [data-price] attribute
    and the quantity input are left as they are. *)
Theorem updatePriceWithQuantity_shows_total
    (priceElement : priceElement) (value : list N) (p q : Z) :
  parseInt (data_price priceElement) = Some p →
  parseInt value = Some q →
  let quantity := if q <=? 0 then 1 else q in
  Z.abs (p * quantity) < 10 ^ 15 →
  updatePriceWithQuantity (mkPage (Some priceElement) (Some value))
  = Some (mkPage (Some (mkPrice (data_price priceElement)
                          (price_text (p * quantity))))
                 (Some value)).
Proof.
  intros Hp Hq quantity Hbound. unfold updatePriceWithQuantity.
  cbn [price quantity_value]. cbv beta iota. rewrite Hp, Hq.
  assert ((if q <=? 0 then Some 1 else Some q) = Some quantity) as ->
    by (unfold quantity; by destruct (q <=? 0)).
  rewrite formatMoney_default, formatWithDelimiters_amount by done. done.
Qed.

Lemma updatePriceWithQuantity_shows_total_witness :
  updatePriceWithQuantity
    (mkPage (Some (mkPrice (codes "1990") (codes "19,90"))) (Some (codes "-2")))
  = Some (mkPage (Some (mkPrice (codes "1990") (price_text (1990 * 1))))
                 (Some (codes "-2"))).
Proof.
  apply (updatePriceWithQuantity_shows_total
           (mkPrice (codes "1990") (codes "19,90")) (codes "-2") 1990 (-2)).
  - reflexivity.
  - reflexivity.
  - simpl. lia.
Defined.

(** X12: [updatePriceWithQuantity] never throws and never touches the
    quantity input or the [data-price] attribute; when an element is
    missing, or one of the two texts does not start with a number, it
    leaves the page as it is. *)
Theorem updatePriceWithQuantity_keeps (pg : page) :
  (∃ pg', updatePriceWithQuantity pg = Some pg' ∧
          quantity_value pg' = quantity_value pg ∧
          data_price <$> price pg' = data_price <$> price pg) ∧
  (price pg = None ∨ quantity_value pg = None ∨
   price pg ≫= (λ e, parseInt (data_price e)) = None ∨
   quantity_value pg ≫= parseInt = None →
   updatePriceWithQuantity pg = Some pg).
Proof.
  destruct pg as [[e|] [v|]]; unfold updatePriceWithQuantity;
    cbn [price quantity_value]; cbv beta iota;
    try (split; [by eexists|done]).
  rewrite formatMoney_default.
  destruct (parseInt (data_price e)) as [p|] eqn:Hp,
           (parseInt v) as [q|] eqn:Hq;
    cbn [mbind option_bind]; try (split; [by eexists|done]).
  split; [destruct (q <=? 0); by eexists|].
  intros [?|[?|[?|?]]]; congruence.
Qed.

(** X13: the two scripts together.  When the counter script publishes a
    non-negative aggregate, the change listener of the price script reads
    back [max(aggregate, 1)] and shows the amount for the unit price times
    that number of pages. *)
Theorem price_follows_page_count
    (files : list Item) (st : state) (priceElement : priceElement) (p : Z) :
  parseInt (data_price priceElement) = Some p →
  let pages := Z.max (getPageCount files st).1 1 in
  0 ≤ (getPageCount files st).1 →
  Z.abs (p * pages) < 10 ^ 15 →
  on_change (updatePageCount files st) priceElement
  = Some (mkPage (Some (mkPrice (data_price priceElement) (price_text (p * pages))))
                 (Some (codes (pretty pages)))).
Proof.
  intros Hp pages Hagg Hbound. unfold on_change.
  assert (quantity (updatePageCount files st) = pretty pages) as ->.
  { rewrite updatePageCount_eq. unfold pages.
    rewrite getPageCount_fst in *. by rewrite or_default_1. }
  assert (parseInt (codes (pretty pages)) = Some pages) as Hq.
  { pose proof (parseInt_reads_decimal [] [] pages) as H.
    rewrite app_nil_l, app_nil_r in H. by apply H. }
  pose proof (updatePriceWithQuantity_shows_total priceElement
                (codes (pretty pages)) p pages Hp Hq) as H.
  simpl in H. replace (pages <=? 0) with false in H
    by (symmetry; apply Z.leb_gt; unfold pages; lia).
  by apply H.
Qed.

Lemma price_follows_page_count_witness :
  on_change (updatePageCount [Scenario.s1; Scenario.s2]
               (mkState {[ "s1" := Num 3; "s2" := Num 1 ]} ∅ "1" [] []))
            (mkPrice (codes "1990") (codes "19,90"))
  = Some (mkPage (Some (mkPrice (codes "1990") (price_text (1990 * 4))))
                 (Some (codes (pretty 4)))).
Proof.
  etrans.
  - apply (price_follows_page_count [Scenario.s1; Scenario.s2]
             (mkState {[ "s1" := Num 3; "s2" := Num 1 ]} ∅ "1" [] [])
             (mkPrice (codes "1990") (codes "19,90")) 1990).
    + reflexivity.
    + by vm_compute.
    + by vm_compute.
  - by vm_compute.
Defined.

Example price_of_four_pages : price_text (1990 * 4) = codes "79,60" ++ currency.
Proof. by vm_compute. Qed.

End PriceText.
